(** * eventfs work queue (wq.c): a shallow embedding and its properties

    The work queue of eventfs is an intrusive singly-linked list of work
    requests ([struct eventfs_wreq]) owned by a [struct eventfs_wq], filled by
    producers through [eventfs_wq_add] and emptied by one worker thread running
    [eventfs_wq_main].

    The embedding keeps the pointers: work requests live in a heap, a finite
    map from addresses to nodes; [NULL] is [None]; dereferencing an address
    that is not allocated has no defined behaviour and yields no result.
    Every C function is a computation in a state-and-failure monad over the
    queue structure, the heap, the collaborators' world (touched by callbacks
    only) and the trace of observable effects (log lines, callback
    invocations, releases of memory, life cycle of the POSIX primitives). *)

From stdpp Require Import base option list gmap.
From Stdlib Require Import ZArith Lia.

(** ** Data model *)

(** Addresses of heap-allocated work requests; a pointer is NULL or an address. *)
Definition loc := positive.
Abbreviation ptr := (option loc).
Abbreviation NULL := (@None positive).

(** [eventfs_wq_func_t]: the identity of a callback; a function pointer may be NULL. *)
Definition fn := positive.
Abbreviation fnptr := (option fn).

(** [void* work_data]: opaque to the queue, only forwarded. *)
Definition data := Z.

Definition pthread_t := Z.

(** errno values (Linux). *)
Definition EINTR : Z := 4.
Definition EAGAIN : Z := 11.
Definition ENOMEM : Z := 12.
Definition EINVAL : Z := 22.
Definition EOVERFLOW : Z := 75.

(** The largest value of a semaphore (limits.h; the value of glibc). *)
Definition SEM_VALUE_MAX : Z := 2147483647.

Module wreq.
(** [struct eventfs_wreq] (declared in wq.h, which is not among the sources),
    with the fields wq.c reads and writes. *)
Record t := mk { work : fnptr; work_data : data; next : ptr }.
(** What [memset( wreq, 0, sizeof(struct eventfs_wreq) )] leaves. *)
Definition zero : t := {| work := None; work_data := 0%Z; next := None |}.
End wreq.

Module wq.
(** [struct eventfs_wq] (declared in wq.h), with the fields wq.c reads and
    writes.
    [work_lock] is [true] while some thread holds the mutex; [work_sem] is
    the value of the counting semaphore; [work] is the head of the pending
    chain and [tail] its last node. *)
Record t := mk {
  running : bool;
  thread : pthread_t;
  work_lock : bool;
  work_sem : nat;
  work : ptr;
  tail : ptr }.
(** What [memset( wq, 0, sizeof(struct eventfs_wq) )] leaves. *)
Definition zero : t :=
  {| running := false; thread := 0%Z; work_lock := false; work_sem := 0;
     work := None; tail := None |}.
End wq.

(** Observable effects, oldest first in a trace. *)
Inductive event :=
| ev_debug_begin (d : data)              (* eventfs_debug("begin work %p") *)
| ev_call (f : fn) (h : loc) (d : data)    (* the callback of work_itr, on work_itr and its work_data *)
| ev_debug_end (d : data)                (* eventfs_debug("end work %p") *)
| ev_error_work (f : fnptr) (rc : Z)     (* eventfs_error("work %p rc = %d") *)
| ev_error_fatal (rc : Z)                (* eventfs_error("FATAL: sem_trywait rc = %d") *)
| ev_error_pthread_create (rc : Z)       (* eventfs_error("pthread_create errno = %d") *)
| ev_free (h : loc)                      (* free() of a work request *)
| ev_mutex_init
| ev_mutex_destroy
| ev_sem_init
| ev_sem_destroy
| ev_pthread_create (t : pthread_t)
| ev_pthread_cancel (t : pthread_t)
| ev_pthread_join (t : pthread_t).

Section WorkQueue.

(** The collaborators' side: their state, and what a callback does to it and
    returns when invoked with a request handle and its payload.  Callbacks do
    not touch the queue or its nodes. *)
Context {World : Type}.
Variable invoke : fn -> loc -> data -> World -> World * Z.

Record state := State {
  queue : wq.t;
  heap : gmap loc wreq.t;
  world : World;
  trace : list event }.

(** ** The monad: state, and no result on undefined behaviour or when the
    calling thread cannot proceed. *)
Definition M (A : Type) : Type := state -> option (A * state).

#[global] Instance M_ret : MRet M := fun A a s => Some (a, s).
#[global] Instance M_bind : MBind M := fun A B k m s =>
  match m s with
  | Some (a, s') => k a s'
  | None => None
  end.
Definition ret {A} (a : A) : M A := mret a.
(** A program without defined behaviour. *)
Definition fault {A} : M A := fun _ => None.
(** A thread that cannot proceed. *)
Definition blocked {A} : M A := fun _ => None.

Definition get_wq : M wq.t := fun s => Some (queue s, s).
Definition set_wq (q : wq.t) : M unit :=
  fun s => Some (tt, State q (heap s) (world s) (trace s)).
(** Modelled from the spec: the diagnostic sink ([eventfs_debug] and
    [eventfs_error] are macros of a header that is not among the sources);
    a report is one more event of the trace. *)
Definition emit (e : event) : M unit :=
  fun s => Some (tt, State (queue s) (heap s) (world s) (trace s ++ [e])).

(** Reading the node a work request pointer points to. *)
Definition load (p : ptr) : M wreq.t :=
  fun s => match p with
           | Some a => match heap s !! a with
                       | Some r => Some (r, s)
                       | None => None
                       end
           | None => None
           end.
(** Overwriting the node a work request pointer points to. *)
Definition store (p : ptr) (r : wreq.t) : M unit :=
  fun s => match p with
           | Some a => match heap s !! a with
                       | Some _ => Some (tt, State (queue s) (<[a := r]> (heap s)) (world s) (trace s))
                       | None => None
                       end
           | None => None
           end.

(** Field updates of the queue structure. *)
Definition set_running (b : bool) (q : wq.t) : wq.t :=
  wq.mk b (wq.thread q) (wq.work_lock q) (wq.work_sem q) (wq.work q) (wq.tail q).
Definition set_thread (t : pthread_t) (q : wq.t) : wq.t :=
  wq.mk (wq.running q) t (wq.work_lock q) (wq.work_sem q) (wq.work q) (wq.tail q).
Definition set_work_lock (b : bool) (q : wq.t) : wq.t :=
  wq.mk (wq.running q) (wq.thread q) b (wq.work_sem q) (wq.work q) (wq.tail q).
Definition set_work_sem (n : nat) (q : wq.t) : wq.t :=
  wq.mk (wq.running q) (wq.thread q) (wq.work_lock q) n (wq.work q) (wq.tail q).
Definition set_work (p : ptr) (q : wq.t) : wq.t :=
  wq.mk (wq.running q) (wq.thread q) (wq.work_lock q) (wq.work_sem q) p (wq.tail q).
Definition set_tail (p : ptr) (q : wq.t) : wq.t :=
  wq.mk (wq.running q) (wq.thread q) (wq.work_lock q) (wq.work_sem q) (wq.work q) p.
Definition set_next (p : ptr) (r : wreq.t) : wreq.t :=
  wreq.mk (wreq.work r) (wreq.work_data r) p.

Definition modify_wq (f : wq.t -> wq.t) : M unit :=
  q ← get_wq; set_wq (f q).

(** ** POSIX primitives on the queue's mutex and semaphore *)

(** [pthread_mutex_lock( &wq->work_lock )]: the caller cannot proceed while
    another thread holds the mutex. *)
Definition pthread_mutex_lock : M unit :=
  q ← get_wq;
  if wq.work_lock q then blocked else set_wq (set_work_lock true q).

Definition pthread_mutex_unlock : M unit := modify_wq (set_work_lock false).

(** [sem_post( &wq->work_sem )], returning its result: the count goes up by
    one, unless it has reached [SEM_VALUE_MAX]; the call then fails (with
    errno [EOVERFLOW]) and leaves the count.  Neither caller looks at the
    result (lines 168 and 257). *)
Definition sem_post : M Z :=
  q ← get_wq;
  if (Z.of_nat (wq.work_sem q) <? SEM_VALUE_MAX)%Z
  then set_wq (set_work_sem (S (wq.work_sem q)) q);; ret 0%Z
  else ret (-1)%Z.

(** The count a post leaves. *)
Definition sem_posted (n : nat) : nat :=
  if (Z.of_nat n <? SEM_VALUE_MAX)%Z then S n else n.

(** ** Work requests *)

(** Modelled from the spec: the release of a node ([eventfs_safe_free], a macro
    of a header that is not among the sources); releasing NULL does nothing,
    releasing an address that is not allocated has no defined behaviour. *)
Definition eventfs_safe_free (p : ptr) : M unit :=
  fun s => match p with
           | None => Some (tt, s)
           | Some a => match heap s !! a with
                       | Some _ => Some (tt, State (queue s) (delete a (heap s)) (world s)
                                                   (trace s ++ [ev_free a]))
                       | None => None
                       end
           end.

(** [eventfs_wreq_init]: create a work request; always succeeds. *)
Definition eventfs_wreq_init (wreq : ptr) (work : fnptr) (work_data : data) : M Z :=
  store wreq wreq.zero;;
  r ← load wreq;
  store wreq (wreq.mk work (wreq.work_data r) (wreq.next r));;
  r ← load wreq;
  store wreq (wreq.mk (wreq.work r) work_data (wreq.next r));;
  ret 0%Z.

(** [eventfs_wreq_free]: free a work request (its fields; not the memory). *)
Definition eventfs_wreq_free (wreq : ptr) : M Z :=
  store wreq wreq.zero;;
  ret 0%Z.

(** ** Enqueue *)

(** Lines 240-253 of [eventfs_wq_add]: the part under [work_lock]. *)
Definition eventfs_wq_add_locked (wreq : ptr) : M unit :=
  pthread_mutex_lock;;
  q ← get_wq;
  match wq.work q with
  | None =>
      (* head *)
      modify_wq (set_work wreq);;
      modify_wq (set_tail wreq)
  | Some _ =>
      (* append *)
      t ← load (wq.tail q);
      store (wq.tail q) (set_next wreq t);;
      modify_wq (set_tail wreq)
  end;;
  pthread_mutex_unlock.

(** Lines 255-260 of [eventfs_wq_add], with [rc] still 0. *)
Definition eventfs_wq_add_post (rc : Z) : M Z :=
  (if (rc =? 0)%Z then sem_post;; ret tt else ret tt);;
  ret rc.

(** [eventfs_wq_add]: enqueue work. *)
Definition eventfs_wq_add (wreq : ptr) : M Z :=
  let rc := 0%Z in
  eventfs_wq_add_locked wreq;;
  eventfs_wq_add_post rc.

(** ** Life cycle *)

(** What the environment answers to [eventfs_wq_init]'s two constructions. *)
Record init_env := { mutex_init_rc : Z; sem_init_rc : Z }.

(** [pthread_mutex_init( &wq->work_lock, NULL )]. *)
Definition pthread_mutex_init (rc : Z) : M Z :=
  (if (rc =? 0)%Z then modify_wq (set_work_lock false);; emit ev_mutex_init else ret tt);;
  ret rc.

(** [sem_init( &wq->work_sem, 0, 0 )]. *)
Definition sem_init (rc : Z) (value : nat) : M Z :=
  (if (rc =? 0)%Z then modify_wq (set_work_sem value);; emit ev_sem_init else ret tt);;
  ret rc.

(** [eventfs_wq_init]: set up a work queue, but don't start it. *)
Definition eventfs_wq_init (env : init_env) : M Z :=
  set_wq wq.zero;;
  rc ← pthread_mutex_init (mutex_init_rc env);
  if negb (rc =? 0)%Z then ret (- Z.abs rc)%Z
  else
    sem_init (sem_init_rc env) 0;;
    ret rc.

(** What the environment answers to [pthread_create]: its return value, what
    it left in [wq->thread] and the calling thread's errno afterwards (which
    [pthread_create] is not bound to set: it reports through its return
    value). *)
Record create_env := { create_rc : Z; create_thread : pthread_t; create_errno : Z }.

(** [pthread_create( &wq->thread, &attrs, eventfs_wq_main, wq )]. *)
Definition pthread_create (env : create_env) : M Z :=
  modify_wq (set_thread (create_thread env));;
  (if (create_rc env =? 0)%Z then emit (ev_pthread_create (create_thread env)) else ret tt);;
  ret (create_rc env).

(** [eventfs_wq_start]: start a work queue. *)
Definition eventfs_wq_start (env : create_env) : M Z :=
  q ← get_wq;
  if wq.running q then ret (- EINVAL)%Z
  else
    modify_wq (set_running true);;
    rc ← pthread_create env;
    if negb (rc =? 0)%Z then
      modify_wq (set_running false);;
      let rc := (- create_errno env)%Z in
      emit (ev_error_pthread_create rc);;
      ret rc
    else ret 0%Z.

(** [eventfs_wq_stop]: stop a work queue.  Cancelling and joining the worker
    are recorded in the trace; what they mean for the worker is part of the
    interleaving semantics below. *)
Definition eventfs_wq_stop : M Z :=
  q ← get_wq;
  if negb (wq.running q) then ret (- EINVAL)%Z
  else
    modify_wq (set_running false);;
    (* wake up the work queue so it cancels *)
    sem_post;;
    q ← get_wq;
    emit (ev_pthread_cancel (wq.thread q));;
    q ← get_wq;
    emit (ev_pthread_join (wq.thread q));;
    ret 0%Z.

(** The loop of [eventfs_wq_queue_free].  Every turn releases an allocated
    node, so the loop makes at most as many turns as the heap has nodes;
    [fuel] bounds the turns. *)
Fixpoint eventfs_wq_queue_free_loop (fuel : nat) (wqueue : ptr) : M unit :=
  match wqueue with
  | None => ret tt
  | Some _ =>
      match fuel with
      | O => fault
      | S fuel =>
          r ← load wqueue;
          let next := wreq.next r in
          eventfs_wreq_free wqueue;;
          eventfs_safe_free wqueue;;
          eventfs_wq_queue_free_loop fuel next
      end
  end.

(** [eventfs_wq_queue_free]: free a work request queue. *)
Definition eventfs_wq_queue_free (wqueue : ptr) : M Z :=
  fun s => (eventfs_wq_queue_free_loop (size (heap s)) wqueue;; ret 0%Z) s.

(** [eventfs_wq_free]: free up a work queue. *)
Definition eventfs_wq_free : M Z :=
  q ← get_wq;
  if wq.running q then ret (- EINVAL)%Z
  else
    (* free all *)
    eventfs_wq_queue_free (wq.work q);;
    emit ev_mutex_destroy;;
    emit ev_sem_destroy;;
    set_wq wq.zero;;
    ret 0%Z.

(** ** The worker: [eventfs_wq_main] *)

(** [sem_trywait( &wq->work_sem )], returning its result and errno.  [inj] is
    an error the environment makes the call fail with, if any. *)
Definition sem_trywait (inj : option Z) : M (Z * Z) :=
  match inj with
  | Some e => ret (-1, e)%Z
  | None =>
      q ← get_wq;
      match wq.work_sem q with
      | S n => set_wq (set_work_sem n q);; ret (0, 0)%Z
      | O => ret (-1, EAGAIN)%Z
      end
  end.

(** [sem_wait( &wq->work_sem )]: as [sem_trywait], but the caller cannot
    proceed while the value is 0. *)
Definition sem_wait (inj : option Z) : M (Z * Z) :=
  match inj with
  | Some e => ret (-1, e)%Z
  | None =>
      q ← get_wq;
      match wq.work_sem q with
      | S n => set_wq (set_work_sem n q);; ret (0, 0)%Z
      | O => blocked
      end
  end.

(** Calling through the function pointer of a work request. *)
Definition call_work (f : fnptr) (h : loc) (d : data) : M Z :=
  match f with
  | None => fault
  | Some f =>
      fun s => let '(w, rc) := invoke f h d (world s) in
               Some (rc, State (queue s) (heap s) w (trace s ++ [ev_call f h d]))
  end.

(** Where the worker thread stands in [eventfs_wq_main]. *)
Inductive worker_pc :=
| W_loop                      (* line 34: while( wq->running ) *)
| W_trywait                   (* line 37: sem_trywait *)
| W_wait                      (* line 44: sem_wait *)
| W_cancelled                 (* line 55: if( !wq->running ) *)
| W_exchange                  (* lines 60-66: exchange buffers *)
| W_work (work_itr : ptr)     (* line 69: while( work_itr != NULL ) *)
| W_return.                   (* line 91: return NULL *)

(** Lines 72-87: one turn of the inner loop, on the node [work_itr]; the
    result is the next value of [work_itr].  The callback does not change the
    node, so its fields are read once. *)
Definition eventfs_wq_main_work (work_itr : loc) : M ptr :=
  r ← load (Some work_itr);
  (* carry out work *)
  emit (ev_debug_begin (wreq.work_data r));;
  rc ← call_work (wreq.work r) work_itr (wreq.work_data r);
  emit (ev_debug_end (wreq.work_data r));;
  (if negb (rc =? 0)%Z then emit (ev_error_work (wreq.work r) rc) else ret tt);;
  let next := wreq.next r in
  eventfs_wreq_free (Some work_itr);;
  eventfs_safe_free (Some work_itr);;
  ret next.

(** Lines 60-66: detach the pending chain under the lock. *)
Definition eventfs_wq_main_exchange : M ptr :=
  pthread_mutex_lock;;
  q ← get_wq;
  let work_itr := wq.work q in
  modify_wq (set_work None);;
  modify_wq (set_tail None);;
  pthread_mutex_unlock;;
  ret work_itr.

(** One step of the worker thread; the steps are the points at which other
    threads can be observed or can observe.  A step that has no result is a
    worker that cannot proceed (blocked in [sem_wait], waiting for the lock)
    or a program without defined behaviour. *)
Definition eventfs_wq_main_step (inj : option Z) (pc : worker_pc) : M worker_pc :=
  match pc with
  | W_loop =>
      q ← get_wq;
      if wq.running q then ret W_trywait else ret W_return
  | W_trywait =>
      (* is there work? *)
      '(rc, errno) ← sem_trywait inj;
      if negb (rc =? 0)%Z then
        let rc := (- errno)%Z in
        if (rc =? - EAGAIN)%Z then
          (* wait for work *)
          ret W_wait
        else
          (* some other fatal error *)
          emit (ev_error_fatal rc);;
          ret W_return
      else ret W_cancelled
  | W_wait =>
      sem_wait inj;;
      ret W_cancelled
  | W_cancelled =>
      (* cancelled? *)
      q ← get_wq;
      if negb (wq.running q) then ret W_return else ret W_exchange
  | W_exchange =>
      work_itr ← eventfs_wq_main_exchange;
      ret (W_work work_itr)
  | W_work None => ret W_loop
  | W_work (Some work_itr) =>
      next ← eventfs_wq_main_work work_itr;
      ret (W_work next)
  | W_return => ret W_return
  end.

(** The worker alone for a number of steps, one possible failure of the
    environment for each. *)
Fixpoint eventfs_wq_main_steps (injs : list (option Z)) (pc : worker_pc) : M worker_pc :=
  match injs with
  | [] => ret pc
  | inj :: injs => pc ← eventfs_wq_main_step inj pc; eventfs_wq_main_steps injs pc
  end.

(** [eventfs_wq_main]: the worker thread from its entry, alone. *)
Definition eventfs_wq_main (injs : list (option Z)) : M worker_pc :=
  eventfs_wq_main_steps injs W_loop.

(** ** Producers and the worker, interleaved *)

(** Modelled from the spec: the allocation of a work request by its producer
    ([malloc], the caller's side of [eventfs_wq_add]); it yields an address
    that is not allocated, holding whatever [junk] was there. *)
Definition malloc (a : loc) (junk : wreq.t) : M ptr :=
  fun s => match heap s !! a with
           | None => Some (Some a, State (queue s) (<[a := junk]> (heap s)) (world s) (trace s))
           | Some _ => None
           end.

(** The whole system: the shared state, where the worker stands, and whether
    its thread is still there ([false] once a cancellation has struck). *)
Record sys := Sys { sys_state : state; sys_pc : worker_pc; sys_alive : bool }.

(** The atomic actions of the threads on the shared state:
    - a producer allocates and initialises a request and runs the locked part
      of [eventfs_wq_add] on it;
    - some thread posts the semaphore (line 257 of [eventfs_wq_add] or line
      168 of [eventfs_wq_stop]);
    - [eventfs_wq_stop] clears the running flag (line 165);
    - the cancellation requested by [eventfs_wq_stop] (line 169) strikes: the
      worker thread ends where it stands, between two of its steps (in
      [sem_wait], or before it begins the next request), and the batch it
      holds, if any, is lost with it; a cancellation that strikes inside the
      execution of a request (in the callback or in a log line) is not among
      the actions;
    - the worker makes a step, if its thread is still there. *)
Inductive action :=
| a_submit (wreq : loc) (junk : wreq.t) (work : fnptr) (work_data : data)
| a_post
| a_stop
| a_cancel
| a_worker (inj : option Z).

Definition sys_step (a : action) (y : sys) : option sys :=
  match a with
  | a_submit wreq junk work work_data =>
      match (p ← malloc wreq junk;
             eventfs_wreq_init p work work_data;;
             eventfs_wq_add_locked p) (sys_state y) with
      | Some (_, s) => Some (Sys s (sys_pc y) (sys_alive y))
      | None => None
      end
  | a_post =>
      match sem_post (sys_state y) with
      | Some (_, s) => Some (Sys s (sys_pc y) (sys_alive y))
      | None => None
      end
  | a_stop =>
      match modify_wq (set_running false) (sys_state y) with
      | Some (_, s) => Some (Sys s (sys_pc y) (sys_alive y))
      | None => None
      end
  | a_cancel => Some (Sys (sys_state y) (sys_pc y) false)
  | a_worker inj =>
      if sys_alive y then
        match eventfs_wq_main_step inj (sys_pc y) (sys_state y) with
        | Some (pc, s) => Some (Sys s pc true)
        | None => None
        end
      else Some y
  end.

Fixpoint sys_run (acts : list action) (y : sys) : option sys :=
  match acts with
  | [] => Some y
  | a :: acts =>
      match sys_step a y with
      | Some y => sys_run acts y
      | None => None
      end
  end.

(** ** Chains of work requests *)

(** A request as its producer and the worker see it: the handle (address of
    the node), the callback and the payload. *)
Record request := Request { handle : loc; callback : fnptr; payload : data }.

(** [chain h p l]: following [next] from [p] in the heap [h] visits exactly
    the requests [l], in this order, and ends in NULL. *)
Fixpoint chain (h : gmap loc wreq.t) (p : ptr) (l : list request) : Prop :=
  match l with
  | [] => p = None
  | r :: l =>
      p = Some (handle r) /\
      exists nx, h !! handle r = Some (wreq.mk (callback r) (payload r) nx) /\ chain h nx l
  end.

(** The pending chain of a queue: [work] heads it and [tail] is its last
    node. *)
Definition pending (s : state) (l : list request) : Prop :=
  chain (heap s) (wq.work (queue s)) l /\
  wq.tail (queue s) = last (handle <$> l).

(** The heap once the nodes at the addresses [l] are released. *)
Definition free_all (l : list loc) (h : gmap loc wreq.t) : gmap loc wreq.t :=
  foldl (fun h a => delete a h) h l.

(** The requests whose callbacks a trace shows invoked, oldest first. *)
Fixpoint calls_of (t : list event) : list request :=
  match t with
  | [] => []
  | ev_call f h d :: t => Request h (Some f) d :: calls_of t
  | _ :: t => calls_of t
  end.

(** The handles a trace shows released, oldest first. *)
Fixpoint frees_of (t : list event) : list loc :=
  match t with
  | [] => []
  | ev_free h :: t => h :: frees_of t
  | _ :: t => frees_of t
  end.

(** The requests a sequence of actions submits, in the order of submission. *)
Fixpoint submitted (acts : list action) : list request :=
  match acts with
  | [] => []
  | a_submit wreq _ work work_data :: acts => Request wreq work work_data :: submitted acts
  | _ :: acts => submitted acts
  end.

(** What the worker logs, calls and releases for one request whose callback
    [f] returns [rc]. *)
Definition work_trace (f : fn) (a : loc) (d : data) (rc : Z) : list event :=
  [ev_debug_begin d; ev_call f a d; ev_debug_end d]
  ++ (if (rc =? 0)%Z then [] else [ev_error_work (Some f) rc])
  ++ [ev_free a].

(** What the worker logs, calls and releases for one detached batch, and the
    world it leaves; the worker stops at a request that has no callback. *)
Fixpoint batch_trace (l : list request) (w : World) : list event * World :=
  match l with
  | [] => ([], w)
  | r :: l =>
      match callback r with
      | Some f =>
          let '(w', rc) := invoke f (handle r) (payload r) w in
          let '(t, w'') := batch_trace l w' in
          (work_trace f (handle r) (payload r) rc ++ t, w'')
      | None => ([], w)
      end
  end.

(** The chain the worker has detached and not yet gone through. *)
Definition private_itr (pc : worker_pc) : ptr :=
  match pc with
  | W_work work_itr => work_itr
  | _ => None
  end.

(** The invariant of the interleaved system, for requests [done] submitted so
    far and a trace that showed the calls [c0] at the start: the submitted
    requests are, in order, those whose callbacks were invoked since, those
    the worker has detached and not yet gone through, and those pending; the
    two chains are well formed and share no node; the mutex is free between
    two actions. *)
Definition sys_inv (c0 done : list request) (y : sys) : Prop :=
  exists ex lp l,
    calls_of (trace (sys_state y)) = c0 ++ ex /\
    ex ++ lp ++ l = done /\
    chain (heap (sys_state y)) (private_itr (sys_pc y)) lp /\
    pending (sys_state y) l /\
    NoDup (handle <$> lp ++ l) /\
    wq.work_lock (queue (sys_state y)) = false.

(** No lost wake-up, with [d] posts still owed by producers: unless the
    worker is between its wait and the exchange (it will take the whole
    chain without waiting again) or has returned, a chain that is not empty
    has a post in the semaphore or a post to come. *)
Definition wakeup_inv (d : nat) (y : sys) : Prop :=
  match sys_pc y with
  | W_cancelled | W_exchange | W_return => True
  | _ => wq.work (queue (sys_state y)) <> None ->
         1 <= wq.work_sem (queue (sys_state y)) + d
  end.

End WorkQueue.

(** ** The invariant of the two chain pointers *)

Definition head_tail_inv (q : wq.t) : Prop :=
  wq.work q = None <-> wq.tail q = None.

(** Every operation on a queue, with what the environment answers to it. *)
Inductive wq_op :=
| op_init (env : init_env)
| op_start (env : create_env)
| op_stop
| op_free
| op_add (wreq : ptr)
| op_worker (inj : option Z) (pc : worker_pc).

Section Operations.
Context {World : Type}.
Variable invoke : fn -> loc -> data -> World -> World * Z.

Definition run_op (o : wq_op) : state -> option (@state World) :=
  fun s =>
    match o with
    | op_init env => snd <$> eventfs_wq_init env s
    | op_start env => snd <$> eventfs_wq_start env s
    | op_stop => snd <$> eventfs_wq_stop s
    | op_free => snd <$> eventfs_wq_free s
    | op_add wreq => snd <$> eventfs_wq_add wreq s
    | op_worker inj pc => snd <$> eventfs_wq_main_step invoke inj pc s
    end.

End Operations.

(** ** Concrete queues, for the examples *)

(** A world that counts the calls; the callback 1 fails with status -5, the
    others succeed. *)
Definition ex_invoke (f : fn) (h : loc) (d : data) (w : nat) : nat * Z :=
  (S w, if (f =? 1)%positive then (-5)%Z else 0%Z).

Definition ex_node1 : wreq.t := wreq.mk (Some 1%positive) 10%Z (Some 2%positive).
Definition ex_node2 : wreq.t := wreq.mk (Some 2%positive) 20%Z None.
Definition ex_node3 : wreq.t := wreq.mk (Some 3%positive) 30%Z None.

Definition ex_req1 : request := Request 1%positive (Some 1%positive) 10%Z.
Definition ex_req2 : request := Request 2%positive (Some 2%positive) 20%Z.
Definition ex_req3 : request := Request 3%positive (Some 3%positive) 30%Z.

(** The two requests 1 and 2 chained, and the node 3 allocated beside them. *)
Definition ex_heap : gmap loc wreq.t :=
  <[1%positive := ex_node1]> (<[2%positive := ex_node2]> (<[3%positive := ex_node3]> ∅)).

(** A queue just initialised and started: empty chain, no post. *)
Definition ex_started : @state nat :=
  State (wq.mk true 7%Z false 0 None None) ∅ 0 [].

(** A queue initialised and not running, empty. *)
Definition ex_idle : @state nat :=
  State (wq.mk false 0%Z false 0 None None) ∅ 0 [].

(** A queue initialised and not running, empty, and the request 3
    constructed beside it. *)
Definition ex_constructed : @state nat :=
  State (wq.mk false 0%Z false 0 None None) (<[3%positive := ex_node3]> ∅) 0 [].

(** A running queue with the requests 1 and 2 pending and two posts. *)
Definition ex_running : @state nat :=
  State (wq.mk true 7%Z false 2 (Some 1%positive) (Some 2%positive)) ex_heap 0 [].

(** The same queue, not running. *)
Definition ex_stopped : @state nat :=
  State (wq.mk false 7%Z false 2 (Some 1%positive) (Some 2%positive)) ex_heap 0 [].

(** The same queue, running, with no post left: its worker blocks in
    [sem_wait]. *)
Definition ex_waiting : @state nat :=
  State (wq.mk true 7%Z false 0 (Some 1%positive) (Some 2%positive)) ex_heap 0 [].

(** A queue that is not running, with an empty chain, whose semaphore has
    reached [SEM_VALUE_MAX] (posts were made and never consumed), and the
    request 3 constructed beside it. *)
Definition ex_saturated : @state nat :=
  State (wq.mk false 0%Z false (Z.to_nat SEM_VALUE_MAX) None None)
        (<[3%positive := ex_node3]> ∅) 0 [].

(** A thread creation that fails with EAGAIN and leaves errno at 0. *)
Definition ex_create_fails : create_env :=
  {| create_rc := EAGAIN; create_thread := 0%Z; create_errno := 0%Z |}.

Definition ex_create_ok : create_env :=
  {| create_rc := 0%Z; create_thread := 7%Z; create_errno := 0%Z |}.

(** Two submissions with their posts; the worker detaches the two requests;
    a third submission; the worker executes the first request; the queue is
    stopped and the worker cancelled, the second request in its hands. *)
Definition ex_acts : list action :=
  [a_submit 1%positive wreq.zero (Some 1%positive) 10%Z; a_post;
   a_submit 2%positive wreq.zero (Some 2%positive) 20%Z; a_post]
  ++ replicate 4 (a_worker None)
  ++ [a_submit 3%positive wreq.zero (Some 3%positive) 30%Z; a_post; a_worker None;
      a_stop; a_post; a_cancel; a_worker None].

(** The same interleaving up to the step that executes the first request:
    the queue is still running and the worker alive, with the second request
    in its hands and the third pending. *)
Definition ex_order_acts : list action :=
  [a_submit 1%positive wreq.zero (Some 1%positive) 10%Z; a_post;
   a_submit 2%positive wreq.zero (Some 2%positive) 20%Z; a_post]
  ++ replicate 4 (a_worker None)
  ++ [a_submit 3%positive wreq.zero (Some 3%positive) 30%Z; a_post; a_worker None].

(** A submission with its post, and the worker run until it waits again. *)
Definition ex_drain_acts : list action :=
  [a_submit 3%positive wreq.zero (Some 3%positive) 30%Z; a_post]
  ++ replicate 8 (a_worker None).

(** A running queue with an empty chain and two posts nobody paired with a
    request. *)
Definition ex_posted : @state nat :=
  State (wq.mk true 7%Z false 2 None None) ∅ 0 [].

(** ** Posts that are due *)

(** The posts producers still owe after a sequence of actions, [d] being owed
    before it: the locked part of an enqueue owes one post (line 257 comes
    after line 253), a post pays one. *)
Fixpoint due_after (acts : list action) (d : nat) : nat :=
  match acts with
  | [] => d
  | a_submit _ _ _ _ :: acts => due_after acts (S d)
  | a_post :: acts => due_after acts (pred d)
  | _ :: acts => due_after acts d
  end.

(** ** Properties *)

Ltac unfold_m :=
  unfold modify_wq, ret, fault, blocked, get_wq, set_wq, emit in *;
  unfold mbind, mret, M_bind, M_ret in *.

(** Splitting a computation that returned along its branches. *)
Ltac mcases := repeat (simplify_eq/=; try case_match).

(** Running a computation forward on the facts at hand about the heap. *)
Ltac mrun :=
  repeat first
    [ progress simpl
    | rewrite lookup_insert_eq
    | rewrite delete_insert_eq
    | match goal with H : _ !! _ = _ |- _ => rewrite H end
    | match goal with H : wreq.work _ = _ |- _ => rewrite H end ].

Section Properties.
Context {World : Type}.
Variable invoke : fn -> loc -> data -> World -> World * Z.
Implicit Types (s : @state World) (q : wq.t) (h : gmap loc wreq.t) (l : list request).

(** *** The semaphore *)

Lemma sem_post_run s :
  sem_post s =
    Some (if (Z.of_nat (wq.work_sem (queue s)) <? SEM_VALUE_MAX)%Z then 0%Z else (-1)%Z,
          State (set_work_sem (sem_posted (wq.work_sem (queue s))) (queue s))
                (heap s) (world s) (trace s)).
Proof.
  destruct s as [[rn th k n w tl] h wd tr]. unfold sem_post, sem_posted. unfold_m.
  cbn. by destruct (Z.of_nat n <? SEM_VALUE_MAX)%Z.
Qed.

Lemma sem_posted_pos n : 1 <= sem_posted n.
Proof.
  unfold sem_posted. destruct (Z.ltb_spec (Z.of_nat n) SEM_VALUE_MAX) as [H|H]; [lia|].
  unfold SEM_VALUE_MAX in H. lia.
Qed.

Lemma sem_posted_lt n : (Z.of_nat n < SEM_VALUE_MAX)%Z -> sem_posted n = S n.
Proof. intros H. unfold sem_posted. by rewrite (proj2 (Z.ltb_lt _ _) H). Qed.

Lemma sem_posted_ge n : (SEM_VALUE_MAX <= Z.of_nat n)%Z -> sem_posted n = n.
Proof. intros H. unfold sem_posted. by rewrite (proj2 (Z.ltb_ge _ _) H). Qed.

(** *** Enqueue *)

Lemma eventfs_wq_add_returns_0 wreq s rc s' :
  eventfs_wq_add wreq s = Some (rc, s') -> rc = 0%Z.
Proof.
  unfold eventfs_wq_add, eventfs_wq_add_post. unfold_m. cbn.
  destruct (eventfs_wq_add_locked wreq s) as [[[] s1]|]; [|done].
  rewrite sem_post_run. by intros [= <- _].
Qed.

Lemma eventfs_wq_add_locked_empty wreq s :
  wq.work_lock (queue s) = false ->
  wq.work (queue s) = None ->
  eventfs_wq_add_locked wreq s =
    Some (tt, State (wq.mk (wq.running (queue s)) (wq.thread (queue s)) false
                           (wq.work_sem (queue s)) wreq wreq)
                    (heap s) (world s) (trace s)).
Proof.
  intros Hl Hw. destruct s as [[r t k n w tl] h wd tr]; simpl in *; subst.
  reflexivity.
Qed.

Lemma eventfs_wq_add_locked_append wreq s hd t r :
  wq.work_lock (queue s) = false ->
  wq.work (queue s) = Some hd ->
  wq.tail (queue s) = Some t ->
  heap s !! t = Some r ->
  eventfs_wq_add_locked wreq s =
    Some (tt, State (wq.mk (wq.running (queue s)) (wq.thread (queue s)) false
                           (wq.work_sem (queue s)) (Some hd) wreq)
                    (<[t := set_next wreq r]> (heap s)) (world s) (trace s)).
Proof.
  intros Hl Hw Ht Hr. destruct s as [[rn th k n w tl] h wd tr]; simpl in *; subst.
  unfold eventfs_wq_add_locked, pthread_mutex_lock, load, store,
    pthread_mutex_unlock.
  unfold_m. mrun. reflexivity.
Qed.

Lemma eventfs_wq_add_after_locked wreq s s1 :
  eventfs_wq_add_locked wreq s = Some (tt, s1) ->
  eventfs_wq_add wreq s =
    Some (0%Z, State (set_work_sem (sem_posted (wq.work_sem (queue s1))) (queue s1))
                     (heap s1) (world s1) (trace s1)).
Proof.
  intros H. unfold eventfs_wq_add, eventfs_wq_add_post. unfold_m.
  cbn. rewrite H. by rewrite sem_post_run.
Qed.

Lemma eventfs_wq_add_empty wreq s :
  wq.work_lock (queue s) = false ->
  wq.work (queue s) = None ->
  eventfs_wq_add wreq s =
    Some (0%Z, State (wq.mk (wq.running (queue s)) (wq.thread (queue s)) false
                            (sem_posted (wq.work_sem (queue s))) wreq wreq)
                     (heap s) (world s) (trace s)).
Proof.
  intros Hl Hw.
  by rewrite (eventfs_wq_add_after_locked _ _ _ (eventfs_wq_add_locked_empty wreq s Hl Hw)).
Qed.

Lemma eventfs_wq_add_append wreq s hd t r :
  wq.work_lock (queue s) = false ->
  wq.work (queue s) = Some hd ->
  wq.tail (queue s) = Some t ->
  heap s !! t = Some r ->
  eventfs_wq_add wreq s =
    Some (0%Z, State (wq.mk (wq.running (queue s)) (wq.thread (queue s)) false
                            (sem_posted (wq.work_sem (queue s))) (Some hd) wreq)
                     (<[t := set_next wreq r]> (heap s)) (world s) (trace s)).
Proof.
  intros Hl Hw Ht Hr.
  by rewrite (eventfs_wq_add_after_locked _ _ _
                (eventfs_wq_add_locked_append wreq s hd t r Hl Hw Ht Hr)).
Qed.

(** C3. Postcondition of enqueue.  Whatever the state, a call of
    [eventfs_wq_add] that returns returns 0.  When the mutex is free and the
    tail of a non-empty chain is an allocated node, the call does return:
    on an empty chain the request becomes head and tail, otherwise it is
    linked after the current tail (whose [next] is the only heap cell that
    changes) and becomes the new tail with the head kept; the semaphore is
    posted exactly once, after the mutex is released: its count goes up by
    one, unless it is at [SEM_VALUE_MAX] already, where the post fails
    unnoticed and the count stays; nothing else changes. *)
Theorem eventfs_wq_add_postcondition wreq s :
  (forall rc s', eventfs_wq_add wreq s = Some (rc, s') -> rc = 0%Z) /\
  (wq.work_lock (queue s) = false ->
   (wq.work (queue s) <> None ->
    exists t, wq.tail (queue s) = Some t /\ is_Some (heap s !! t)) ->
   exists s',
     eventfs_wq_add wreq s = Some (0%Z, s') /\
     ((Z.of_nat (wq.work_sem (queue s)) < SEM_VALUE_MAX)%Z ->
      wq.work_sem (queue s') = S (wq.work_sem (queue s))) /\
     ((SEM_VALUE_MAX <= Z.of_nat (wq.work_sem (queue s)))%Z ->
      wq.work_sem (queue s') = wq.work_sem (queue s)) /\
     wq.tail (queue s') = wreq /\
     wq.work_lock (queue s') = false /\
     wq.running (queue s') = wq.running (queue s) /\
     wq.thread (queue s') = wq.thread (queue s) /\
     world s' = world s /\ trace s' = trace s /\
     match wq.work (queue s) with
     | None => wq.work (queue s') = wreq /\ heap s' = heap s
     | Some hd =>
         wq.work (queue s') = Some hd /\
         exists t r, wq.tail (queue s) = Some t /\ heap s !! t = Some r /\
                     heap s' = <[t := set_next wreq r]> (heap s) /\
                     heap s' !! t = Some (wreq.mk (wreq.work r) (wreq.work_data r) wreq)
     end).
Proof.
  split; [intros rc s'; apply eventfs_wq_add_returns_0|].
  intros Hl Ht. destruct (wq.work (queue s)) as [hd|] eqn:Hw.
  - destruct Ht as (t & Htl & [r Hr]); [done|].
    eexists. split; [by eapply eventfs_wq_add_append|].
    cbn [queue heap world trace wq.work_sem wq.tail wq.work_lock wq.running wq.thread wq.work].
    split; [apply sem_posted_lt|]. split; [apply sem_posted_ge|].
    repeat split; try done. exists t, r. repeat split; try done.
    by rewrite lookup_insert_eq.
  - eexists. split; [by apply eventfs_wq_add_empty|].
    cbn [queue heap world trace wq.work_sem wq.tail wq.work_lock wq.running wq.thread wq.work].
    split; [apply sem_posted_lt|]. split; [apply sem_posted_ge|]. by repeat split.
Qed.

(** *** One turn of the loops that release nodes *)

Lemma eventfs_wq_queue_free_loop_turn fuel a r s :
  heap s !! a = Some r ->
  eventfs_wq_queue_free_loop (S fuel) (Some a) s =
  eventfs_wq_queue_free_loop fuel (wreq.next r)
    (State (queue s) (delete a (heap s)) (world s) (trace s ++ [ev_free a])).
Proof.
  intros Hr. simpl.
  unfold eventfs_wreq_free, load, store, eventfs_safe_free. unfold_m.
  mrun. reflexivity.
Qed.

Lemma eventfs_wq_queue_free_loop_fault fuel a s :
  heap s !! a = None -> eventfs_wq_queue_free_loop fuel (Some a) s = None.
Proof.
  intros Hr. destruct fuel; simpl; [done|].
  unfold load. unfold_m. by rewrite Hr.
Qed.

Lemma eventfs_wq_main_work_turn a r f s :
  heap s !! a = Some r ->
  wreq.work r = Some f ->
  eventfs_wq_main_work invoke a s =
    let '(w, rc) := invoke f a (wreq.work_data r) (world s) in
    Some (wreq.next r,
          State (queue s) (delete a (heap s)) w
                (trace s ++ work_trace f a (wreq.work_data r) rc)).
Proof.
  intros Hr Hf.
  unfold eventfs_wq_main_work, eventfs_wreq_free, load, store, eventfs_safe_free,
    call_work, work_trace.
  unfold_m. mrun.
  destruct (invoke f a (wreq.work_data r) (world s)) as [w rc].
  destruct (rc =? 0)%Z; mrun; rewrite <- ?app_assoc; reflexivity.
Qed.

Lemma eventfs_wq_main_work_fault a s :
  (heap s !! a = None \/ exists r, heap s !! a = Some r /\ wreq.work r = None) ->
  eventfs_wq_main_work invoke a s = None.
Proof.
  unfold eventfs_wq_main_work, load, call_work. unfold_m.
  intros [Hr|(r & Hr & Hf)]; rewrite Hr; simpl; [done|]. by rewrite Hf.
Qed.

Lemma eventfs_wq_queue_free_loop_queue fuel p s u s' :
  eventfs_wq_queue_free_loop fuel p s = Some (u, s') ->
  queue s' = queue s /\ world s' = world s.
Proof.
  revert p s. induction fuel as [|fuel IH]; intros [a|] s; simpl; try done;
    try (by intros [= _ <-]).
  change (eventfs_wq_queue_free_loop (S fuel) (Some a) s = Some (u, s') ->
          queue s' = queue s /\ world s' = world s).
  destruct (heap s !! a) as [r|] eqn:Hr.
  - rewrite (eventfs_wq_queue_free_loop_turn fuel a r s Hr). intros H.
    by apply IH in H.
  - by rewrite eventfs_wq_queue_free_loop_fault.
Qed.

Lemma eventfs_wq_main_work_queue a s nx s' :
  eventfs_wq_main_work invoke a s = Some (nx, s') -> queue s' = queue s.
Proof.
  destruct (heap s !! a) as [r|] eqn:Hr.
  - destruct (wreq.work r) as [f|] eqn:Hf.
    + rewrite (eventfs_wq_main_work_turn a r f s Hr Hf).
      destruct (invoke f a (wreq.work_data r) (world s)) as [w rc].
      by intros [= _ <-].
    + rewrite eventfs_wq_main_work_fault; [done|]. right. eauto.
  - rewrite eventfs_wq_main_work_fault; [done|]. by left.
Qed.

(** *** The invariant of the two chain pointers *)

Lemma eventfs_wq_init_head_tail env s rc s' :
  eventfs_wq_init env s = Some (rc, s') ->
  wq.work (queue s') = None /\ wq.tail (queue s') = None.
Proof.
  unfold eventfs_wq_init, pthread_mutex_init, sem_init. unfold_m.
  intros H. mcases; done.
Qed.

Lemma eventfs_wq_main_step_head_tail inj pc s pc' s' :
  head_tail_inv (queue s) ->
  eventfs_wq_main_step invoke inj pc s = Some (pc', s') ->
  head_tail_inv (queue s').
Proof.
  intros Hinv.
  destruct pc as [| | | | |[a|]|]; simpl;
    try (unfold sem_trywait, sem_wait, eventfs_wq_main_exchange,
           pthread_mutex_lock, pthread_mutex_unlock; unfold_m;
         intros H; mcases; done).
  unfold_m. destruct (eventfs_wq_main_work invoke a s) as [[nx s2]|] eqn:E; [|done].
  intros [= _ <-]. apply eventfs_wq_main_work_queue in E. by rewrite E.
Qed.

Lemma eventfs_wq_add_head_tail wreq s rc s' :
  wreq <> None ->
  eventfs_wq_add wreq s = Some (rc, s') ->
  head_tail_inv (queue s').
Proof.
  intros Hw.
  unfold eventfs_wq_add, eventfs_wq_add_locked, pthread_mutex_lock,
    pthread_mutex_unlock, eventfs_wq_add_post, sem_post, load, store.
  unfold_m. intros H. unfold head_tail_inv. mcases; naive_solver.
Qed.

(** C4. The head of the pending chain is NULL exactly when its tail is: the
    invariant holds after [eventfs_wq_init] whatever the structure held
    before, and every operation on the queue (initialisation, start, stop,
    destruction, enqueue of a request that is not NULL, and every step of the
    worker, the detach of the batch among them) that returns preserves it. *)
Theorem head_tail_inv_preserved (o : wq_op) s s' :
  (forall env, o = op_init env -> run_op invoke o s = Some s' ->
               head_tail_inv (queue s')) /\
  (head_tail_inv (queue s) ->
   (forall wreq, o = op_add wreq -> wreq <> None) ->
   run_op invoke o s = Some s' ->
   head_tail_inv (queue s')).
Proof.
  assert (Hinit : forall env, run_op invoke (op_init env) s = Some s' ->
                              head_tail_inv (queue s')).
  { intros env H. simpl in H.
    destruct (eventfs_wq_init env s) as [[rc s1]|] eqn:E; [|done].
    injection H as <-. apply eventfs_wq_init_head_tail in E as [E1 E2].
    unfold head_tail_inv. by rewrite E1, E2. }
  split; [intros env ->; apply Hinit|].
  intros Hinv Hadd H. destruct o as [env|env| | |wreq|inj pc]; simpl in H.
  - by apply (Hinit env).
  - revert H. unfold eventfs_wq_start, pthread_create. unfold_m.
    intros H. mcases; done.
  - revert H. unfold eventfs_wq_stop, sem_post. unfold_m.
    intros H. mcases; done.
  - revert H. unfold eventfs_wq_free, eventfs_wq_queue_free. unfold_m.
    intros H. unfold head_tail_inv. mcases; done.
  - destruct (eventfs_wq_add wreq s) as [[rc s1]|] eqn:E; [|done].
    injection H as <-. eapply eventfs_wq_add_head_tail; [|done]. by apply Hadd.
  - destruct (eventfs_wq_main_step invoke inj pc s) as [[pc' s1]|] eqn:E; [|done].
    injection H as <-. by eapply eventfs_wq_main_step_head_tail.
Qed.

(** *** Chains in the heap *)

Lemma chain_nil h p : chain h p [] <-> p = None.
Proof. done. Qed.

Lemma chain_insert_ne h p l a r :
  a ∉ handle <$> l -> chain h p l -> chain (<[a := r]> h) p l.
Proof.
  revert p. induction l as [|x l IH]; intros p Ha; simpl; [done|].
  rewrite fmap_cons, not_elem_of_cons in Ha. destruct Ha as [Hne Ha].
  intros (-> & nx & Hx & Hc). split; [done|]. exists nx. split; [|by apply IH].
  by rewrite lookup_insert_ne.
Qed.

Lemma chain_delete_ne h p l a :
  a ∉ handle <$> l -> chain h p l -> chain (delete a h) p l.
Proof.
  revert p. induction l as [|x l IH]; intros p Ha; simpl; [done|].
  rewrite fmap_cons, not_elem_of_cons in Ha. destruct Ha as [Hne Ha].
  intros (-> & nx & Hx & Hc). split; [done|]. exists nx. split; [|by apply IH].
  by rewrite lookup_delete_ne.
Qed.

Lemma chain_allocated h p l a :
  chain h p l -> a ∈ handle <$> l -> is_Some (h !! a).
Proof.
  revert p. induction l as [|x l IH]; intros p; simpl.
  - intros _ Ha. by apply elem_of_nil in Ha.
  - intros (-> & nx & Hx & Hc). rewrite elem_of_cons. intros [->|Ha]; [eauto|].
    by eapply IH.
Qed.

(** A chain is a function of the heap and its head. *)
Lemma chain_unique h p l1 l2 : chain h p l1 -> chain h p l2 -> l1 = l2.
Proof.
  revert p l2. induction l1 as [|x l1 IH]; intros p [|y l2]; simpl; try done.
  - intros -> [? _]. done.
  - intros [-> _] ?. done.
  - intros (-> & nx & Hx & Hc) ([= Hxy] & ny & Hy & Hc').
    rewrite <- Hxy in Hy. rewrite Hx in Hy. injection Hy as Hcb Hpl <-.
    f_equal; [|by eapply IH].
    destruct x, y; simpl in *; by subst.
Qed.

Lemma chain_suffix h p l1 l2 : chain h p (l1 ++ l2) -> exists p', chain h p' l2.
Proof.
  revert p. induction l1 as [|x l1 IH]; intros p; [by exists p|].
  intros (-> & nx & Hx & Hc). by eapply IH.
Qed.

(** A chain ends: no node occurs twice in it. *)
Lemma chain_NoDup h p l : chain h p l -> NoDup (handle <$> l).
Proof.
  revert p. induction l as [|x l IH]; intros p; [intros _; apply NoDup_nil_2|].
  intros (-> & nx & Hx & Hc). rewrite fmap_cons. apply NoDup_cons.
  split; [|by eapply IH].
  intros Hin. apply list_elem_of_fmap in Hin as (y & Hy & Hin).
  apply list_elem_of_split in Hin as (l1 & l2 & ->).
  destruct (chain_suffix _ _ _ _ Hc) as (p' & Hq).
  assert (Hq' : chain h (Some (handle x)) (y :: l2)).
  { destruct Hq as (-> & Hq). split; [by rewrite Hy|done]. }
  assert (Hx' : chain h (Some (handle x)) (x :: l1 ++ y :: l2)).
  { split; [done|]. by exists nx. }
  pose proof (chain_unique _ _ _ _ Hq' Hx') as E.
  apply (f_equal length) in E. cbn in E. rewrite length_app in E. cbn in E. lia.
Qed.

(** Linking a new node after the last one. *)
Lemma chain_snoc h p l t rt a f d :
  chain h p l ->
  last (handle <$> l) = Some t ->
  NoDup (handle <$> l) ->
  h !! t = Some rt ->
  a ∉ handle <$> l ->
  h !! a = Some (wreq.mk f d None) ->
  chain (<[t := set_next (Some a) rt]> h) p (l ++ [Request a f d]).
Proof.
  revert p. induction l as [|x l IH]; intros p; [done|].
  destruct l as [|y l].
  - simpl. intros (-> & nx & Hx & ->) [= <-] _ Ht Ha Hnew.
    rewrite Hx in Ht. injection Ht as <-.
    apply not_elem_of_cons in Ha as [Ha _].
    split; [done|]. exists (Some a). rewrite lookup_insert_eq. split; [done|].
    split; [done|]. exists None. by rewrite lookup_insert_ne.
  - intros (-> & nx & Hx & Hc) Hl Hnd Ht Ha Hnew.
    rewrite !fmap_cons in Hl, Hnd, Ha.
    rewrite last_cons_cons in Hl.
    apply NoDup_cons in Hnd as [Hx_notin Hnd].
    apply not_elem_of_cons in Ha as [Hax Ha].
    assert (Hxt : handle x ≠ t).
    { intros E. apply Hx_notin. rewrite E. by apply last_Some_elem_of. }
    change ((x :: y :: l) ++ [Request a f d]) with (x :: ((y :: l) ++ [Request a f d])).
    split; [done|]. exists nx. rewrite lookup_insert_ne by done. split; [done|].
    apply IH; try done.
Qed.

Lemma chain_length_le_size h p l :
  chain h p l -> NoDup (handle <$> l) -> length l <= size h.
Proof.
  revert h p. induction l as [|x l IH]; intros h p; simpl; [lia|].
  intros (-> & nx & Hx & Hc) Hnd.
  apply NoDup_cons in Hnd as [Hx_notin Hnd].
  pose proof (IH (delete (handle x) h) nx (chain_delete_ne _ _ _ _ Hx_notin Hc) Hnd) as Hle.
  rewrite <- (insert_delete_id h _ _ Hx).
  rewrite map_size_insert_None by apply lookup_delete_eq. lia.
Qed.

Lemma lookup_free_all (l : list loc) h b :
  free_all l h !! b = if decide (b ∈ l) then None else h !! b.
Proof.
  unfold free_all. revert h. induction l as [|a l IH]; intros h; cbn [foldl].
  - destruct (decide (b ∈ [])) as [Hb|]; [by apply elem_of_nil in Hb|done].
  - rewrite IH. destruct (decide (b ∈ l)) as [Hb|Hb].
    + rewrite decide_True; [done|]. by right.
    + destruct (decide (a = b)) as [->|Hab].
      * rewrite lookup_delete_eq. rewrite decide_True; [done|]. by left.
      * rewrite lookup_delete_ne by done. rewrite decide_False; [done|].
        rewrite not_elem_of_cons. split; [congruence|done].
Qed.

(** *** Enqueue on a well-formed pending chain *)

Lemma pending_NoDup s l : pending s l -> NoDup (handle <$> l).
Proof. intros (Hc & _). by eapply chain_NoDup. Qed.

Lemma pending_last_allocated s x l :
  pending s (x :: l) ->
  exists t rt, wq.work (queue s) = Some (handle x) /\
               wq.tail (queue s) = Some t /\ last (handle <$> x :: l) = Some t /\
               heap s !! t = Some rt.
Proof.
  intros (Hc & Htl).
  destruct (last (handle <$> x :: l)) as [t|] eqn:Ht; [|by apply last_None in Ht].
  destruct (chain_allocated _ _ _ t Hc) as [rt Hrt]; [by apply last_Some_elem_of|].
  exists t, rt. by destruct Hc as [-> _].
Qed.

Lemma NoDup_snoc_fresh (l : list loc) a : NoDup l -> a ∉ l -> NoDup (l ++ [a]).
Proof.
  intros Hnd Ha. apply NoDup_app. split; [done|]. split; [|apply NoDup_singleton].
  intros b Hb Hb'. apply list_elem_of_singleton in Hb'. by subst.
Qed.

Lemma eventfs_wq_add_locked_pending s l a f d :
  wq.work_lock (queue s) = false ->
  pending s l ->
  heap s !! a = Some (wreq.mk f d None) ->
  a ∉ handle <$> l ->
  exists s',
    eventfs_wq_add_locked (Some a) s = Some (tt, s') /\
    pending s' (l ++ [Request a f d]) /\
    wq.running (queue s') = wq.running (queue s) /\
    wq.thread (queue s') = wq.thread (queue s) /\
    wq.work_lock (queue s') = false /\
    wq.work_sem (queue s') = wq.work_sem (queue s) /\
    world s' = world s /\ trace s' = trace s /\
    (forall b, b ∉ handle <$> l -> heap s' !! b = heap s !! b) /\
    (forall b, is_Some (heap s' !! b) <-> is_Some (heap s !! b)).
Proof.
  intros Hlock Hp Ha Hfresh. destruct l as [|x l].
  - destruct Hp as (Hc & Htl). cbn in Hc.
    eexists. split; [by apply eventfs_wq_add_locked_empty|].
    split; [|by repeat split].
    split; [|done].
    cbn. split; [done|]. by exists None.
  - destruct (pending_last_allocated s x l Hp) as (t & rt & Hw & Htl & Ht & Hrt).
    pose proof (pending_NoDup _ _ Hp) as Hnd. destruct Hp as (Hc & _).
    assert (Hta : t ∈ handle <$> x :: l) by by apply last_Some_elem_of.
    eexists. split; [by eapply eventfs_wq_add_locked_append|].
    split; [|repeat split; try done].
    + split; cbn [queue heap wq.work wq.tail].
      * rewrite <- Hw. by eapply chain_snoc.
      * rewrite fmap_app. change (handle <$> [Request a f d]) with [a].
        by rewrite last_snoc.
    + intros b Hb. cbn [heap]. rewrite lookup_insert_ne; [done|]. by intros ->.
    + cbn [heap]. intros Hb. destruct (decide (t = b)) as [<-|Hne]; [eauto|].
      by rewrite lookup_insert_ne in Hb.
    + cbn [heap]. intros Hb. destruct (decide (t = b)) as [<-|Hne].
      * rewrite lookup_insert_eq. eauto.
      * by rewrite lookup_insert_ne.
Qed.

Lemma eventfs_wq_add_pending s l a f d :
  wq.work_lock (queue s) = false ->
  pending s l ->
  heap s !! a = Some (wreq.mk f d None) ->
  a ∉ handle <$> l ->
  exists s',
    eventfs_wq_add (Some a) s = Some (0%Z, s') /\
    pending s' (l ++ [Request a f d]) /\
    wq.running (queue s') = wq.running (queue s) /\
    wq.thread (queue s') = wq.thread (queue s) /\
    wq.work_lock (queue s') = false /\
    wq.work_sem (queue s') = sem_posted (wq.work_sem (queue s)) /\
    world s' = world s /\ trace s' = trace s /\
    (forall b, b ∉ handle <$> l -> heap s' !! b = heap s !! b) /\
    (forall b, is_Some (heap s' !! b) <-> is_Some (heap s !! b)).
Proof.
  intros Hlock Hp Ha Hfresh.
  destruct (eventfs_wq_add_locked_pending s l a f d Hlock Hp Ha Hfresh)
    as (s1 & Hrun & Hp1 & Hr & Ht & Hl & Hs & Hw & Htr & Hframe & Hdom).
  eexists. split; [by apply eventfs_wq_add_after_locked|].
  cbn [queue heap world trace]. unfold set_work_sem.
  cbn [wq.running wq.thread wq.work_lock wq.work_sem].
  rewrite Hs. split; [|repeat split; try done; apply Hdom].
  destruct Hp1 as (Hc & Htl). by split.
Qed.

(** *** Destruction *)

Lemma eventfs_wq_queue_free_loop_chain fuel l p s :
  chain (heap s) p l ->
  NoDup (handle <$> l) ->
  length l <= fuel ->
  eventfs_wq_queue_free_loop fuel p s =
    Some (tt, State (queue s) (free_all (handle <$> l) (heap s)) (world s)
                    (trace s ++ (ev_free <$> (handle <$> l)))).
Proof.
  revert fuel p s. induction l as [|x l IH]; intros fuel p s Hc Hnd Hfuel.
  - cbn in Hc. subst p. destruct s. destruct fuel; cbn; by rewrite app_nil_r.
  - destruct Hc as (-> & nx & Hx & Hc). rewrite fmap_cons in Hnd.
    apply NoDup_cons in Hnd as [Hx_notin Hnd].
    destruct fuel as [|fuel]; [cbn in Hfuel; lia|].
    rewrite (eventfs_wq_queue_free_loop_turn fuel _ _ s Hx).
    rewrite IH; cbn [heap wreq.next]; [|by apply chain_delete_ne|done|cbn in Hfuel; lia].
    cbn [queue heap world trace]. rewrite !fmap_cons, <- app_assoc. reflexivity.
Qed.

(** The bound on the turns is never what stops the loop: any bound from the
    size of the heap on gives the same result. *)
Lemma eventfs_wq_queue_free_loop_fuel fuel p s :
  size (heap s) <= fuel ->
  eventfs_wq_queue_free_loop fuel p s =
  eventfs_wq_queue_free_loop (size (heap s)) p s.
Proof.
  remember (size (heap s)) as n eqn:Hn. revert fuel p s Hn.
  induction n as [|n IH]; intros fuel p s Hn Hfuel.
  - destruct p as [a|]; [|by destruct fuel].
    symmetry in Hn. apply map_size_empty_iff in Hn.
    rewrite !eventfs_wq_queue_free_loop_fault; [done| |]; by rewrite Hn, lookup_empty.
  - destruct p as [a|]; [|by destruct fuel].
    destruct (heap s !! a) as [r|] eqn:Hr.
    + destruct fuel as [|fuel]; [lia|].
      rewrite !(eventfs_wq_queue_free_loop_turn _ a r s Hr).
      apply IH; cbn [heap]; [|lia].
      rewrite map_size_delete_Some by eauto. lia.
    + by rewrite !eventfs_wq_queue_free_loop_fault.
Qed.

Lemma eventfs_wq_queue_free_chain l p s :
  chain (heap s) p l ->
  NoDup (handle <$> l) ->
  eventfs_wq_queue_free p s =
    Some (0%Z, State (queue s) (free_all (handle <$> l) (heap s)) (world s)
                     (trace s ++ (ev_free <$> (handle <$> l)))).
Proof.
  intros Hc Hnd. unfold eventfs_wq_queue_free. unfold_m.
  rewrite (eventfs_wq_queue_free_loop_chain _ l); [done..|].
  by eapply chain_length_le_size.
Qed.

Lemma calls_of_app t1 t2 : calls_of (t1 ++ t2) = calls_of t1 ++ calls_of t2.
Proof.
  induction t1 as [|e t1 IH]; [done|].
  destruct e; cbn; by rewrite ?IH.
Qed.

Lemma frees_of_app t1 t2 : frees_of (t1 ++ t2) = frees_of t1 ++ frees_of t2.
Proof.
  induction t1 as [|e t1 IH]; [done|].
  destruct e; cbn; by rewrite ?IH.
Qed.

Lemma calls_of_frees (l : list loc) : calls_of (ev_free <$> l) = [].
Proof. by induction l. Qed.

Lemma frees_of_frees (l : list loc) : frees_of (ev_free <$> l) = l.
Proof. induction l as [|a l IH]; [done|]. cbn. by rewrite IH. Qed.

Lemma eventfs_wq_free_pending s l :
  wq.running (queue s) = false ->
  pending s l ->
  eventfs_wq_free s =
    Some (0%Z, State wq.zero (free_all (handle <$> l) (heap s)) (world s)
                     (trace s ++ (ev_free <$> (handle <$> l))
                              ++ [ev_mutex_destroy; ev_sem_destroy])).
Proof.
  intros Hrun Hp. pose proof (pending_NoDup _ _ Hp) as Hnd. destruct Hp as (Hc & Htl).
  unfold eventfs_wq_free. unfold_m. rewrite Hrun.
  rewrite (eventfs_wq_queue_free_chain l _ s Hc Hnd). cbn.
  by rewrite <- !app_assoc.
Qed.

(** C8. Destruction of a queue that is not running, with a well-formed
    pending chain [l]: [eventfs_wq_free] returns 0; every node of the chain is
    released, in chain order, and no callback is invoked (the trace grows by
    one release per node, then the destruction of the mutex and of the
    semaphore, and by nothing else; the world of the callbacks is untouched);
    the structure is left zeroed.  So with N pending requests, no callback
    runs and N nodes are freed. *)
Theorem eventfs_wq_free_discards s l :
  wq.running (queue s) = false ->
  pending s l ->
  let s' := State wq.zero (free_all (handle <$> l) (heap s)) (world s)
                  (trace s ++ (ev_free <$> (handle <$> l))
                           ++ [ev_mutex_destroy; ev_sem_destroy]) in
  eventfs_wq_free s = Some (0%Z, s') /\
  calls_of (trace s') = calls_of (trace s) /\
  frees_of (trace s') = frees_of (trace s) ++ (handle <$> l) /\
  length (frees_of (trace s')) = length (frees_of (trace s)) + length l /\
  (forall r, r ∈ l -> heap s' !! handle r = None).
Proof.
  intros Hrun Hp. cbn zeta. split; [|split; [|split; [|split]]].
  - by apply eventfs_wq_free_pending.
  - cbn [trace]. rewrite !calls_of_app, calls_of_frees. cbn. by rewrite app_nil_r.
  - cbn [trace]. rewrite !frees_of_app, frees_of_frees. cbn. by rewrite app_nil_r.
  - cbn [trace]. rewrite !frees_of_app, frees_of_frees. cbn.
    by rewrite app_nil_r, length_app, length_fmap.
  - intros r Hr. cbn [heap]. rewrite lookup_free_all.
    rewrite decide_True; [done|]. by apply list_elem_of_fmap_2.
Qed.

(** *** Life cycle misuse and thread creation *)

(** C6, as the code has it.  Starting a running queue, stopping a queue that
    is not running and destroying a running queue are each rejected with
    [-EINVAL], the same code in the three cases, which is not the success
    code 0; and each leaves the whole state as it was: the running flag, the
    head and tail of the chain, the semaphore, the thread handle, the mutex,
    the heap of requests and the trace. *)
Theorem lifecycle_misuse_rejected env s :
  (wq.running (queue s) = true ->
   eventfs_wq_start env s = Some ((- EINVAL)%Z, s)) /\
  (wq.running (queue s) = false ->
   eventfs_wq_stop s = Some ((- EINVAL)%Z, s)) /\
  (wq.running (queue s) = true ->
   eventfs_wq_free s = Some ((- EINVAL)%Z, s)) /\
  (- EINVAL)%Z <> 0%Z.
Proof.
  unfold eventfs_wq_start, eventfs_wq_stop, eventfs_wq_free. unfold_m.
  repeat split; try (intros ->; done). done.
Qed.

Lemma eventfs_wq_start_spawn_failure env s :
  wq.running (queue s) = false ->
  create_rc env <> 0%Z ->
  eventfs_wq_start env s =
    Some ((- create_errno env)%Z,
          State (set_thread (create_thread env) (queue s)) (heap s) (world s)
                (trace s ++ [ev_error_pthread_create (- create_errno env)])).
Proof.
  intros Hrun Hrc. apply Z.eqb_neq in Hrc.
  unfold eventfs_wq_start, pthread_create. unfold_m. rewrite Hrun.
  repeat (rewrite Hrc; cbn). destruct s as [[rn th lk n w tl] h wd tr]. cbn in *.
  by subst rn.
Qed.

Lemma eventfs_wq_start_spawn_success env s :
  wq.running (queue s) = false ->
  create_rc env = 0%Z ->
  eventfs_wq_start env s =
    Some (0%Z,
          State (set_thread (create_thread env) (set_running true (queue s)))
                (heap s) (world s)
                (trace s ++ [ev_pthread_create (create_thread env)])).
Proof.
  intros Hrun Hrc.
  unfold eventfs_wq_start, pthread_create. unfold_m. rewrite Hrun.
  by repeat (rewrite Hrc; cbn).
Qed.

(** After a failed thread creation the running flag is false again, and a
    second call of [eventfs_wq_start] goes on to create the thread. *)
Lemma eventfs_wq_start_retry env env' s rc s' :
  wq.running (queue s) = false ->
  create_rc env <> 0%Z ->
  create_rc env' = 0%Z ->
  eventfs_wq_start env s = Some (rc, s') ->
  wq.running (queue s') = false /\
  exists s'', eventfs_wq_start env' s' = Some (0%Z, s'') /\
              wq.running (queue s'') = true /\
              wq.thread (queue s'') = create_thread env'.
Proof.
  intros Hrun Hrc Hrc'. rewrite eventfs_wq_start_spawn_failure by done.
  intros [= <- <-]. cbn. split; [done|].
  eexists. split; [by apply eventfs_wq_start_spawn_success|]. done.
Qed.

(** *** The worker on a detached batch *)

Lemma eventfs_wq_main_steps_app injs1 injs2 pc s :
  eventfs_wq_main_steps invoke (injs1 ++ injs2) pc s =
  match eventfs_wq_main_steps invoke injs1 pc s with
  | Some (pc', s') => eventfs_wq_main_steps invoke injs2 pc' s'
  | None => None
  end.
Proof.
  revert pc s. induction injs1 as [|inj injs1 IH]; intros pc s; [done|].
  cbn [app eventfs_wq_main_steps]. unfold_m.
  destruct (eventfs_wq_main_step invoke inj pc s) as [[pc1 s1]|]; [apply IH|done].
Qed.

Lemma eventfs_wq_main_steps_cons inj injs pc s pc1 s1 :
  eventfs_wq_main_step invoke inj pc s = Some (pc1, s1) ->
  eventfs_wq_main_steps invoke (inj :: injs) pc s = eventfs_wq_main_steps invoke injs pc1 s1.
Proof. intros H. cbn [eventfs_wq_main_steps]. unfold_m. by rewrite H. Qed.

Lemma eventfs_wq_main_step_work a r f inj s :
  heap s !! a = Some r ->
  wreq.work r = Some f ->
  eventfs_wq_main_step invoke inj (W_work (Some a)) s =
    Some (W_work (wreq.next r),
          State (queue s) (delete a (heap s))
                (invoke f a (wreq.work_data r) (world s)).1
                (trace s ++ work_trace f a (wreq.work_data r)
                              (invoke f a (wreq.work_data r) (world s)).2)).
Proof.
  intros Hr Hf. cbn [eventfs_wq_main_step]. unfold_m.
  rewrite (eventfs_wq_main_work_turn a r f s Hr Hf).
  by destruct (invoke f a (wreq.work_data r) (world s)).
Qed.

Lemma eventfs_wq_main_steps_batch injs l p s :
  chain (heap s) p l ->
  NoDup (handle <$> l) ->
  Forall (fun r => is_Some (callback r)) l ->
  length injs = S (length l) ->
  eventfs_wq_main_steps invoke injs (W_work p) s =
    Some (W_loop,
          State (queue s) (free_all (handle <$> l) (heap s))
                (batch_trace invoke l (world s)).2
                (trace s ++ (batch_trace invoke l (world s)).1)).
Proof.
  revert injs p s. induction l as [|x l IH]; intros injs p s Hc Hnd Hcb Hlen.
  - cbn in Hc. subst p. destruct injs as [|inj [|? ?]]; try done.
    destruct s. cbn. by rewrite app_nil_r.
  - destruct Hc as (-> & nx & Hx & Hc). rewrite fmap_cons in Hnd.
    apply NoDup_cons in Hnd as [Hx_notin Hnd].
    apply Forall_cons in Hcb as [[f Hf] Hcb].
    destruct injs as [|inj injs]; [done|]. cbn in Hlen.
    rewrite (eventfs_wq_main_steps_cons _ _ _ _ _ _ (eventfs_wq_main_step_work _ _ f inj s Hx Hf)).
    rewrite IH; cbn [heap wreq.next wreq.work_data world trace queue];
      [|by apply chain_delete_ne|done|done|lia].
    cbn [batch_trace]. rewrite Hf.
    destruct (invoke f (handle x) (payload x) (world s)) as [w rc]. cbn [fst snd].
    destruct (batch_trace invoke l w) as [t w']. cbn [fst snd].
    by rewrite fmap_cons, app_assoc.
Qed.

Lemma calls_of_work_trace f a d rc : calls_of (work_trace f a d rc) = [Request a (Some f) d].
Proof. unfold work_trace. by destruct (rc =? 0)%Z. Qed.

Lemma frees_of_work_trace f a d rc : frees_of (work_trace f a d rc) = [a].
Proof. unfold work_trace. by destruct (rc =? 0)%Z. Qed.

Lemma calls_of_batch_trace l w :
  Forall (fun r => is_Some (callback r)) l ->
  calls_of (batch_trace invoke l w).1 = l.
Proof.
  revert w. induction l as [|x l IH]; intros w Hcb; [done|].
  apply Forall_cons in Hcb as [[f Hf] Hcb]. cbn [batch_trace]. rewrite Hf.
  destruct (invoke f (handle x) (payload x) w) as [w1 rc].
  specialize (IH w1 Hcb). destruct (batch_trace invoke l w1) as [t w2].
  cbn [fst] in *. rewrite calls_of_app, calls_of_work_trace, IH.
  destruct x; cbn in *; by subst.
Qed.

Lemma frees_of_batch_trace l w :
  Forall (fun r => is_Some (callback r)) l ->
  frees_of (batch_trace invoke l w).1 = handle <$> l.
Proof.
  revert w. induction l as [|x l IH]; intros w Hcb; [done|].
  apply Forall_cons in Hcb as [[f Hf] Hcb]. cbn [batch_trace]. rewrite Hf.
  destruct (invoke f (handle x) (payload x) w) as [w1 rc].
  specialize (IH w1 Hcb). destruct (batch_trace invoke l w1) as [t w2].
  cbn [fst] in *. by rewrite frees_of_app, frees_of_work_trace, IH.
Qed.

(** C5. The worker on a detached batch [l] (a well-formed chain of requests
    that have callbacks), whatever the callbacks return: it goes through the
    whole batch and is back at the test of its outer loop.  The trace grows
    by [batch_trace]: for each request in chain order the begin line, the
    call, the end line, the error line exactly when the status is not 0, and
    the release of the node, before anything of the next request.  So every
    request of the batch is called, in order, and every node is released; the
    queue structure is as before, and if it is running the worker goes on to
    wait for the next batch. *)
Theorem callback_failure_does_not_stop_worker injs l p s :
  chain (heap s) p l ->
  Forall (fun r => is_Some (callback r)) l ->
  length injs = S (length l) ->
  let t := (batch_trace invoke l (world s)).1 in
  let s' := State (queue s) (free_all (handle <$> l) (heap s))
                  (batch_trace invoke l (world s)).2 (trace s ++ t) in
  eventfs_wq_main_steps invoke injs (W_work p) s = Some (W_loop, s') /\
  calls_of t = l /\
  frees_of t = handle <$> l /\
  (forall r, r ∈ l -> heap s' !! handle r = None) /\
  (wq.running (queue s) = true ->
   forall inj, eventfs_wq_main_step invoke inj W_loop s' = Some (W_trywait, s')).
Proof.
  intros Hc Hcb Hlen. pose proof (chain_NoDup _ _ _ Hc) as Hnd. cbn zeta. repeat split.
  - by apply eventfs_wq_main_steps_batch.
  - by apply calls_of_batch_trace.
  - by apply frees_of_batch_trace.
  - intros r Hr. cbn [heap]. rewrite lookup_free_all.
    rewrite decide_True; [done|]. by apply list_elem_of_fmap_2.
  - intros Hrun inj. cbn [eventfs_wq_main_step]. unfold_m. cbn. by rewrite Hrun.
Qed.

(** *** The invariant of the interleaved system *)

Lemma chain_ext h h' p l :
  (forall b, b ∈ handle <$> l -> h' !! b = h !! b) ->
  chain h p l -> chain h' p l.
Proof.
  revert p. induction l as [|x l IH]; intros p Hext; [done|].
  intros (-> & nx & Hx & Hc). split; [done|]. exists nx. split.
  - rewrite Hext; [done|]. rewrite fmap_cons. by left.
  - apply IH; [|done]. intros b Hb. apply Hext. rewrite fmap_cons. by right.
Qed.

Lemma pending_frame s s' l :
  wq.work (queue s') = wq.work (queue s) ->
  wq.tail (queue s') = wq.tail (queue s) ->
  (forall b, b ∈ handle <$> l -> heap s' !! b = heap s !! b) ->
  pending s l -> pending s' l.
Proof.
  intros Hw Ht Hext (Hc & Htl). split; [|congruence].
  rewrite Hw. by eapply chain_ext.
Qed.

Lemma submit_run a junk f d s :
  heap s !! a = None ->
  (p ← malloc a junk; eventfs_wreq_init p f d;; eventfs_wq_add_locked p) s =
  eventfs_wq_add_locked (Some a)
    (State (queue s) (<[a := wreq.mk f d None]> (heap s)) (world s) (trace s)).
Proof.
  intros Ha. unfold malloc, eventfs_wreq_init, load, store. unfold_m.
  rewrite Ha. cbn [heap queue world trace].
  rewrite !lookup_insert_eq. cbn [heap queue world trace].
  rewrite !lookup_insert_eq. cbn [heap queue world trace].
  rewrite !lookup_insert_eq. cbn [heap queue world trace].
  rewrite !lookup_insert_eq. cbn [heap queue world trace].
  rewrite !lookup_insert_eq. cbn [heap queue world trace].
  by rewrite !insert_insert_eq.
Qed.

Lemma submit_fault a junk f d s :
  is_Some (heap s !! a) ->
  (p ← malloc a junk; eventfs_wreq_init p f d;; eventfs_wq_add_locked p) s = None.
Proof. intros [r Ha]. unfold malloc. unfold_m. by rewrite Ha. Qed.

(** The steps of the worker outside the exchange and the inner loop touch
    neither the heap nor the chain pointers, and call nothing. *)
Lemma eventfs_wq_main_step_idle inj pc s pc' s' :
  pc <> W_exchange ->
  private_itr pc = None ->
  eventfs_wq_main_step invoke inj pc s = Some (pc', s') ->
  heap s' = heap s /\ world s' = world s /\
  wq.work (queue s') = wq.work (queue s) /\
  wq.tail (queue s') = wq.tail (queue s) /\
  wq.work_lock (queue s') = wq.work_lock (queue s) /\
  wq.running (queue s') = wq.running (queue s) /\
  calls_of (trace s') = calls_of (trace s) /\
  frees_of (trace s') = frees_of (trace s) /\
  private_itr pc' = None.
Proof.
  intros Hex Hitr.
  destruct pc as [| | | | |[a|]|]; try done; cbn [eventfs_wq_main_step];
    unfold sem_trywait, sem_wait; unfold_m; intros H; mcases;
    rewrite ?calls_of_app, ?frees_of_app, ?app_nil_r; done.
Qed.

Lemma eventfs_wq_main_step_exchange inj s :
  wq.work_lock (queue s) = false ->
  eventfs_wq_main_step invoke inj W_exchange s =
    Some (W_work (wq.work (queue s)),
          State (wq.mk (wq.running (queue s)) (wq.thread (queue s)) false
                       (wq.work_sem (queue s)) None None)
                (heap s) (world s) (trace s)).
Proof.
  intros Hl. cbn [eventfs_wq_main_step].
  unfold eventfs_wq_main_exchange, pthread_mutex_lock, pthread_mutex_unlock.
  unfold_m. by rewrite Hl.
Qed.

Lemma eventfs_wq_main_step_exchange_locked inj s :
  wq.work_lock (queue s) = true ->
  eventfs_wq_main_step invoke inj W_exchange s = None.
Proof.
  intros Hl. cbn [eventfs_wq_main_step].
  unfold eventfs_wq_main_exchange, pthread_mutex_lock. unfold_m. by rewrite Hl.
Qed.

Lemma eventfs_wq_main_step_work_fault a inj s :
  (heap s !! a = None \/ exists r, heap s !! a = Some r /\ wreq.work r = None) ->
  eventfs_wq_main_step invoke inj (W_work (Some a)) s = None.
Proof.
  intros H. cbn [eventfs_wq_main_step]. unfold_m.
  by rewrite eventfs_wq_main_work_fault.
Qed.

Lemma chain_None_nil h l : chain h None l -> l = [].
Proof. destruct l; [done|]. by intros [? _]. Qed.

Lemma sys_inv_worker c0 D inj y y' :
  sys_inv c0 D y ->
  sys_step invoke (a_worker inj) y = Some y' ->
  sys_inv c0 D y'.
Proof.
  destruct y as [s pc [|]]; cbn [sys_step sys_alive]; [|by intros Hinv [= <-]].
  intros (ex & lp & l & Hex & HD & Hlp & Hp & Hnd & Hlock).
  cbn [sys_state sys_pc] in *.
  destruct (eventfs_wq_main_step invoke inj pc s) as [[pc' s']|] eqn:Hstep; [|done].
  intros [= <-]. unfold sys_inv. cbn [sys_state sys_pc].
  assert (Hidle : pc <> W_exchange -> private_itr pc = None ->
            exists ex lp l,
              calls_of (trace s') = c0 ++ ex /\ ex ++ lp ++ l = D /\
              chain (heap s') (private_itr pc') lp /\ pending s' l /\
              NoDup (handle <$> lp ++ l) /\ wq.work_lock (queue s') = false).
  { intros Hne Hnone. rewrite Hnone in Hlp. apply chain_None_nil in Hlp. subst lp.
    destruct (eventfs_wq_main_step_idle _ _ _ _ _ Hne Hnone Hstep)
      as (Hh & Hw & Hwk & Htl & Hlk & _ & Hcalls & _ & Hitr).
    exists ex, [], l. rewrite Hcalls, Hitr.
    split_and!; try done; try congruence.
    apply (pending_frame s); [done|done| |done]. intros. by rewrite Hh. }
  destruct pc as [| | | | |[a|]|]; try (by apply Hidle).
  { (* the batch is detached: what was pending is now the worker's *)
    rewrite eventfs_wq_main_step_exchange in Hstep by done. injection Hstep as <- <-.
    apply chain_None_nil in Hlp. subst lp.
    exists ex, l, []. cbn [trace heap queue private_itr wq.work_lock].
    rewrite app_nil_r. pose proof (pending_NoDup _ _ Hp) as Hnd'.
    destruct Hp as (Hc & Htl). split_and!; try done. }
  clear Hidle.
  (* one request of the detached batch is executed and released *)
  destruct lp as [|x lp]; [done|].
  destruct Hlp as ([= ->] & nx & Hx & Hlp).
  destruct (callback x) as [f|] eqn:Hf.
  2:{ rewrite eventfs_wq_main_step_work_fault in Hstep; [done|]. right. eauto. }
  rewrite (eventfs_wq_main_step_work _ _ f inj s Hx eq_refl) in Hstep. injection Hstep as <- <-.
  cbn [fmap list_fmap app] in Hnd. change (list_fmap _ _ handle ?k) with (handle <$> k) in Hnd.
  apply NoDup_cons in Hnd as [Hx_notin Hnd].
  rewrite fmap_app, not_elem_of_app in Hx_notin. destruct Hx_notin as [Hx_lp Hx_l].
  exists (ex ++ [x]), lp, l. cbn [trace heap queue private_itr wreq.next wreq.work_data].
  split_and!; try done.
  - rewrite calls_of_app, calls_of_work_trace, Hex, <- app_assoc.
    rewrite <- Hf. by destruct x.
  - by rewrite <- HD, <- app_assoc.
  - by apply chain_delete_ne.
  - apply (pending_frame s); [done|done| |done]. cbn [heap]. intros b Hb.
    rewrite lookup_delete_ne; [done|]. intros E. by subst b.
Qed.

Lemma sys_inv_submit c0 D a junk f d y y' :
  sys_inv c0 D y ->
  sys_step invoke (a_submit a junk f d) y = Some y' ->
  sys_inv c0 (D ++ [Request a f d]) y'.
Proof.
  destruct y as [s pc al]. intros (ex & lp & l & Hex & HD & Hlp & Hp & Hnd & Hlock).
  cbn [sys_state sys_pc] in *. cbn [sys_step sys_state sys_pc].
  destruct (heap s !! a) as [r|] eqn:Ha.
  { rewrite submit_fault by eauto. done. }
  rewrite submit_run by done.
  assert (Ha_lp : a ∉ handle <$> lp).
  { intros Hin. destruct (chain_allocated _ _ _ _ Hlp Hin) as [r Hr]. congruence. }
  assert (Ha_l : a ∉ handle <$> l).
  { intros Hin. destruct Hp as (Hc & _).
    destruct (chain_allocated _ _ _ _ Hc Hin) as [r Hr]. congruence. }
  set (s0 := State (queue s) (<[a := wreq.mk f d None]> (heap s)) (world s) (trace s)).
  assert (Hp0 : pending s0 l).
  { apply (pending_frame s); [done|done| |done]. intros b Hb. cbn [s0 heap].
    rewrite lookup_insert_ne; [done|]. intros E. by subst b. }
  destruct (eventfs_wq_add_locked_pending s0 l a f d Hlock Hp0)
    as (s' & Hrun & Hp' & _ & _ & Hlock' & _ & _ & Htr & Hframe & _);
    [apply lookup_insert_eq|done|].
  rewrite Hrun. intros [= <-]. unfold sys_inv. cbn [sys_state sys_pc].
  exists ex, lp, (l ++ [Request a f d]). split_and!; try done.
  - by rewrite Htr.
  - by rewrite <- HD, <- !app_assoc.
  - apply (chain_ext (heap s)); [|done]. intros b Hb.
    rewrite Hframe.
    + cbn [s0 heap]. rewrite lookup_insert_ne; [done|]. intros E. by subst b.
    + intros Hbl. rewrite fmap_app in Hnd. apply NoDup_app in Hnd as (_ & Hdisj & _).
      by apply (Hdisj b).
  - rewrite app_assoc, fmap_app. apply NoDup_snoc_fresh; [done|].
    rewrite fmap_app, not_elem_of_app. done.
Qed.

Lemma sys_step_post y :
  sys_step invoke a_post y =
    Some (Sys (State (set_work_sem (sem_posted (wq.work_sem (queue (sys_state y))))
                                   (queue (sys_state y)))
                     (heap (sys_state y)) (world (sys_state y)) (trace (sys_state y)))
              (sys_pc y) (sys_alive y)).
Proof. cbn [sys_step]. by rewrite sem_post_run. Qed.

Lemma sys_inv_post c0 D y y' :
  sys_inv c0 D y ->
  sys_step invoke a_post y = Some y' ->
  sys_inv c0 D y'.
Proof.
  destruct y as [s pc al]. intros (ex & lp & l & Hex & HD & Hlp & Hp & Hnd & Hlock).
  cbn [sys_state sys_pc] in *. rewrite sys_step_post. intros [= <-].
  exists ex, lp, l. cbn. split_and!; try done.
Qed.

Lemma sys_inv_stop c0 D y y' :
  sys_inv c0 D y ->
  sys_step invoke a_stop y = Some y' ->
  sys_inv c0 D y'.
Proof.
  destruct y as [s pc al]. intros (ex & lp & l & Hex & HD & Hlp & Hp & Hnd & Hlock).
  cbn [sys_state sys_pc] in *. cbn. intros [= <-].
  exists ex, lp, l. cbn. split_and!; try done.
Qed.

Lemma sys_inv_cancel c0 D y y' :
  sys_inv c0 D y ->
  sys_step invoke a_cancel y = Some y' ->
  sys_inv c0 D y'.
Proof. destruct y as [s pc al]. cbn. by intros Hinv [= <-]. Qed.

Lemma submitted_app acts1 acts2 :
  submitted (acts1 ++ acts2) = submitted acts1 ++ submitted acts2.
Proof.
  induction acts1 as [|a acts1 IH]; [done|].
  destruct a; cbn; by rewrite ?IH.
Qed.

Lemma sys_inv_step c0 D a y y' :
  sys_inv c0 D y ->
  sys_step invoke a y = Some y' ->
  sys_inv c0 (D ++ submitted [a]) y'.
Proof.
  intros Hinv Hstep. destruct a as [wreq junk f d| | | |inj]; cbn [submitted].
  - by eapply sys_inv_submit.
  - rewrite app_nil_r. by eapply sys_inv_post.
  - rewrite app_nil_r. by eapply sys_inv_stop.
  - rewrite app_nil_r. by eapply sys_inv_cancel.
  - rewrite app_nil_r. by eapply sys_inv_worker.
Qed.

Lemma sys_inv_run c0 D acts y y' :
  sys_inv c0 D y ->
  sys_run invoke acts y = Some y' ->
  sys_inv c0 (D ++ submitted acts) y'.
Proof.
  revert D y. induction acts as [|a acts IH]; intros D y Hinv; cbn [sys_run].
  - intros [= <-]. cbn. by rewrite app_nil_r.
  - destruct (sys_step invoke a y) as [y1|] eqn:Hstep; [|done]. intros Hrun.
    change (a :: acts) with ([a] ++ acts). rewrite submitted_app, app_assoc.
    eapply IH; [|done]. by eapply sys_inv_step.
Qed.

(** Under the invariant the system is never stuck for a reason of its own:
    a submission at a free address goes through, and the worker proceeds
    unless it waits on a semaphore without post or holds a request without
    callback; in particular it never follows a dangling pointer. *)
Lemma submit_progress c0 D y a junk f d :
  sys_inv c0 D y ->
  heap (sys_state y) !! a = None ->
  is_Some (sys_step invoke (a_submit a junk f d) y).
Proof.
  destruct y as [s pc al]. intros (ex & lp & l & Hex & HD & Hlp & Hp & Hnd & Hlock) Ha.
  cbn [sys_state sys_pc] in *. cbn [sys_step sys_state sys_pc].
  rewrite submit_run by done.
  assert (Ha_l : a ∉ handle <$> l).
  { intros Hin. destruct Hp as (Hc & _).
    destruct (chain_allocated _ _ _ _ Hc Hin) as [r Hr]. congruence. }
  set (s0 := State (queue s) (<[a := wreq.mk f d None]> (heap s)) (world s) (trace s)).
  assert (Hp0 : pending s0 l).
  { apply (pending_frame s); [done|done| |done]. intros b Hb. cbn [s0 heap].
    rewrite lookup_insert_ne; [done|]. intros E. by subst b. }
  destruct (eventfs_wq_add_locked_pending s0 l a f d Hlock Hp0) as (s' & -> & _);
    [apply lookup_insert_eq|done|]. by eexists.
Qed.

Lemma worker_progress c0 D s pc alive inj :
  sys_inv c0 D (Sys s pc alive) ->
  eventfs_wq_main_step invoke inj pc s = None ->
  (pc = W_wait /\ inj = None /\ wq.work_sem (queue s) = 0) \/
  (exists x, pc = W_work (Some (handle x)) /\ callback x = None /\
             is_Some (heap s !! handle x)).
Proof.
  intros (ex & lp & l & Hex & HD & Hlp & Hp & Hnd & Hlock).
  cbn [sys_state sys_pc] in *.
  destruct pc as [| | | | |[a|]|].
  - cbn [eventfs_wq_main_step]. unfold_m. intros H. mcases.
  - cbn [eventfs_wq_main_step]. unfold sem_trywait. unfold_m. intros H. mcases.
  - cbn [eventfs_wq_main_step]. unfold sem_wait. unfold_m. intros H. left.
    mcases. done.
  - cbn [eventfs_wq_main_step]. unfold_m. intros H. mcases.
  - by rewrite eventfs_wq_main_step_exchange.
  - destruct lp as [|x lp]; [done|].
    destruct Hlp as ([= ->] & nx & Hx & Hlp). intros H. right.
    destruct (callback x) as [f|] eqn:Hf.
    + rewrite (eventfs_wq_main_step_work _ _ f inj s Hx eq_refl) in H. done.
    + exists x. by split_and!.
  - done.
  - done.
Qed.

(** A queue with a worker that holds no batch. *)
Lemma sys_inv_start s pc alive l :
  pending s l ->
  wq.work_lock (queue s) = false ->
  private_itr pc = None ->
  sys_inv (calls_of (trace s)) l (Sys s pc alive).
Proof.
  intros Hp Hlock Hpc. exists [], [], l. cbn [sys_state sys_pc].
  rewrite Hpc, app_nil_r. split_and!; try done. by eapply pending_NoDup.
Qed.

(** *** No lost wake-up *)

Lemma due_after_cons a acts d : due_after (a :: acts) d = due_after acts (due_after [a] d).
Proof. by destruct a. Qed.

Lemma wakeup_inv_step d a y y' :
  wakeup_inv d y ->
  sys_step invoke a y = Some y' ->
  wakeup_inv (due_after [a] d) y'.
Proof.
  destruct y as [s pc al]. unfold wakeup_inv. cbn [sys_pc sys_state].
  destruct a as [wreq junk f w| | | |inj]; cbn [sys_step sys_state sys_pc sys_alive due_after].
  - intros _ H. case_match; [|done]. case_match. injection H as <-.
    cbn [sys_pc sys_state]. destruct pc; try done; intros; lia.
  - rewrite sem_post_run. intros Hinv [= <-].
    cbn [sys_pc sys_state queue wq.work_sem wq.work set_work_sem].
    pose proof (sem_posted_pos (wq.work_sem (queue s))).
    destruct pc; try done; intros; lia.
  - cbn. intros Hinv [= <-]. cbn. destruct pc; try done.
  - intros Hinv [= <-]. cbn. destruct pc; try done.
  - destruct al; [|by intros Hinv [= <-]].
    destruct (eventfs_wq_main_step invoke inj pc s) as [[pc' s']|] eqn:Hstep; [|done].
    intros Hinv [= <-]. cbn [sys_pc sys_state]. revert Hstep.
    destruct pc as [| | | | |[a|]|].
    + cbn [eventfs_wq_main_step]. unfold_m. intros H. mcases; try done; intros Hw; specialize (Hinv Hw); cbn in *; lia.
    + cbn [eventfs_wq_main_step]. unfold sem_trywait. unfold_m. intros H. mcases; try done; intros Hw; specialize (Hinv Hw); cbn in *; lia.
    + cbn [eventfs_wq_main_step]. unfold sem_wait. unfold_m. intros H. mcases; try done; intros Hw; specialize (Hinv Hw); cbn in *; lia.
    + cbn [eventfs_wq_main_step]. unfold_m. intros H. mcases; try done; intros Hw; specialize (Hinv Hw); cbn in *; lia.
    + cbn [eventfs_wq_main_step].
      unfold eventfs_wq_main_exchange, pthread_mutex_lock, pthread_mutex_unlock.
      unfold_m. intros H. mcases; try done; intros Hw; specialize (Hinv Hw); cbn in *; lia.
    + cbn [eventfs_wq_main_step]. unfold_m.
      destruct (eventfs_wq_main_work invoke a s) as [[nx s2]|] eqn:E; [|done].
      intros [= <- <-]. apply eventfs_wq_main_work_queue in E. by rewrite E.
    + cbn [eventfs_wq_main_step]. unfold_m. intros [= <- <-]. done.
    + cbn [eventfs_wq_main_step]. unfold_m. intros [= <- <-]. done.
Qed.

Lemma wakeup_inv_run d acts y y' :
  wakeup_inv d y ->
  sys_run invoke acts y = Some y' ->
  wakeup_inv (due_after acts d) y'.
Proof.
  revert d y. induction acts as [|a acts IH]; intros d y Hinv; cbn [sys_run].
  - by intros [= <-].
  - destruct (sys_step invoke a y) as [y1|] eqn:Hstep; [|done]. intros Hrun.
    rewrite due_after_cons. eapply IH; [|done]. by eapply wakeup_inv_step.
Qed.

(** *** A worker that has returned *)

Lemma sys_step_returned a s alive y :
  sys_step invoke a (Sys s W_return alive) = Some y ->
  sys_pc y = W_return /\
  trace (sys_state y) = trace s /\
  world (sys_state y) = world s /\
  (wq.running (queue s) = false -> wq.running (queue (sys_state y)) = false) /\
  (forall b, is_Some (heap s !! b) -> is_Some (heap (sys_state y) !! b)).
Proof.
  destruct a as [wreq junk f d| | | |inj]; cbn [sys_step sys_state sys_pc sys_alive].
  - destruct (heap s !! wreq) as [r|] eqn:Ha.
    { rewrite submit_fault by eauto. done. }
    rewrite submit_run by done.
    unfold eventfs_wq_add_locked, pthread_mutex_lock, pthread_mutex_unlock, load, store.
    unfold_m. intros H. mcases; split_and!; try done; intros b Hb;
      rewrite !lookup_insert_is_Some'; eauto.
  - rewrite sem_post_run. intros [= <-]. cbn. by split_and!.
  - intros [= <-]. cbn. by split_and!.
  - intros [= <-]. cbn. by split_and!.
  - destruct alive; intros [= <-]; cbn; by split_and!.
Qed.

Lemma sys_run_returned acts s alive y :
  sys_run invoke acts (Sys s W_return alive) = Some y ->
  sys_pc y = W_return /\
  trace (sys_state y) = trace s /\
  world (sys_state y) = world s /\
  (wq.running (queue s) = false -> wq.running (queue (sys_state y)) = false) /\
  (forall b, is_Some (heap s !! b) -> is_Some (heap (sys_state y) !! b)).
Proof.
  revert s alive. induction acts as [|a acts IH]; intros s alive; cbn [sys_run].
  - intros [= <-]. cbn. by split_and!.
  - destruct (sys_step invoke a (Sys s W_return alive)) as [[s1 pc1 al1]|] eqn:Hstep; [|done].
    apply sys_step_returned in Hstep as (Hpc & Htr & Hw & Hrun & Hh).
    cbn [sys_pc sys_state] in *. subst pc1. intros Hacts.
    apply IH in Hacts as (Hpc' & Htr' & Hw' & Hrun' & Hh').
    split_and!; try congruence; auto.
Qed.

(** With a returned worker the pending chain only grows. *)
Lemma returned_keeps_pending s alive l acts y :
  pending s l ->
  wq.work_lock (queue s) = false ->
  sys_run invoke acts (Sys s W_return alive) = Some y ->
  pending (sys_state y) (l ++ submitted acts).
Proof.
  intros Hp Hlock Hacts.
  pose proof (sys_inv_run _ _ _ _ _ (sys_inv_start s W_return alive _ Hp Hlock eq_refl) Hacts)
    as (ex & lp & l' & Hex & HD & Hlp & Hp' & _ & _).
  apply sys_run_returned in Hacts as (Hpc & Htr & _).
  rewrite Hpc in Hlp. apply chain_None_nil in Hlp. subst lp.
  rewrite Htr in Hex. rewrite <- (app_nil_r (calls_of (trace s))) in Hex at 1.
  apply app_inv_head in Hex. subst ex. cbn [app] in HD. by subst l'.
Qed.

(** X14. The fatal path of the try-wait.  When [sem_trywait] fails with an
    error that is not EAGAIN, the worker logs it and leaves its loop, with the queue, the
    heap and the world as they were; and from then on, whatever the other
    threads do (submissions, posts, clearing the running flag, cancelling)
    and however often the returned worker is scheduled, it stays returned,
    the trace does not grow (nothing is called, released or logged), the
    world of the callbacks does not change, no allocated node is released,
    and the pending chain is never detached: it is what it was, followed by
    the requests submitted since. *)
Theorem fatal_trywait_error_stops_worker s e :
  e <> EAGAIN ->
  let s' := State (queue s) (heap s) (world s)
                  (trace s ++ [ev_error_fatal (- e)]) in
  eventfs_wq_main_step invoke (Some e) W_trywait s = Some (W_return, s') /\
  forall acts y,
    sys_run invoke acts (Sys s' W_return true) = Some y ->
    sys_pc y = W_return /\
    trace (sys_state y) = trace s' /\
    world (sys_state y) = world s' /\
    (forall b, is_Some (heap s' !! b) -> is_Some (heap (sys_state y) !! b)) /\
    (wq.work_lock (queue s) = false ->
     forall l, pending s l -> pending (sys_state y) (l ++ submitted acts)).
Proof.
  intros He. cbn zeta. split.
  - cbn [eventfs_wq_main_step]. unfold sem_trywait. unfold_m. cbn.
    assert ((- e =? - EAGAIN)%Z = false) as -> by (apply Z.eqb_neq; lia).
    done.
  - intros acts y Hrun.
    pose proof (sys_run_returned _ _ _ _ Hrun) as (Hpc & Htr & Hw & _ & Hh).
    split_and!; try done. intros Hlock l Hp.
    apply (returned_keeps_pending
             (State (queue s) (heap s) (world s) (trace s ++ [ev_error_fatal (- e)]))
             true l acts y); [by apply (pending_frame s)|exact Hlock|exact Hrun].
Qed.

(** *** Enqueue on a queue that is not running *)

(** C10, as the code has it.  [eventfs_wq_add] does not look at the running
    flag.  On a queue that is not running (well-formed pending chain [l],
    mutex free) the enqueue of a constructed request still returns 0, appends
    the request to the chain and posts the semaphore (the count goes up by
    one, unless it is at [SEM_VALUE_MAX] already, where it stays), and calls
    nothing.
    From then on, as long as the queue is not started (there is no worker
    thread: it has returned, or was never created) and whatever the producers
    do next (more submissions, posts, a stop), nothing is ever called: the
    trace and the world stay as they were and the node stays allocated, in
    the pending chain.  [eventfs_wq_free] then returns 0 and releases the
    node, with every other node of the chain, without calling anything. *)
Theorem enqueue_on_stopped_queue s l a f d :
  wq.running (queue s) = false ->
  wq.work_lock (queue s) = false ->
  pending s l ->
  heap s !! a = Some (wreq.mk f d None) ->
  a ∉ handle <$> l ->
  exists s1,
    eventfs_wq_add (Some a) s = Some (0%Z, s1) /\
    pending s1 (l ++ [Request a f d]) /\
    ((Z.of_nat (wq.work_sem (queue s)) < SEM_VALUE_MAX)%Z ->
     wq.work_sem (queue s1) = S (wq.work_sem (queue s))) /\
    ((SEM_VALUE_MAX <= Z.of_nat (wq.work_sem (queue s)))%Z ->
     wq.work_sem (queue s1) = wq.work_sem (queue s)) /\
    wq.running (queue s1) = false /\
    trace s1 = trace s /\ world s1 = world s /\
    forall alive acts y,
      sys_run invoke acts (Sys s1 W_return alive) = Some y ->
      let s2 := sys_state y in
      let l2 := l ++ [Request a f d] ++ submitted acts in
      trace s2 = trace s /\ world s2 = world s /\
      is_Some (heap s2 !! a) /\
      pending s2 l2 /\
      exists s3,
        eventfs_wq_free s2 = Some (0%Z, s3) /\
        heap s3 !! a = None /\
        calls_of (trace s3) = calls_of (trace s) /\
        frees_of (trace s3) = frees_of (trace s) ++ (handle <$> l2).
Proof.
  intros Hrun Hlock Hp Ha Hfresh.
  destruct (eventfs_wq_add_pending s l a f d Hlock Hp Ha Hfresh)
    as (s1 & Hadd & Hp1 & Hr1 & _ & Hl1 & Hs1 & Hw1 & Ht1 & _ & _).
  exists s1. split; [done|]. split; [done|].
  split; [intros Hlt; by rewrite Hs1, sem_posted_lt|].
  split; [intros Hge; by rewrite Hs1, sem_posted_ge|].
  split; [congruence|]. split; [done|]. split; [done|].
  intros alive acts y Hacts. cbn zeta.
  pose proof (returned_keeps_pending _ _ _ _ _ Hp1 Hl1 Hacts) as Hp'.
  apply sys_run_returned in Hacts as (Hpc & Htr & Hw & Hrun' & _).
  rewrite <- app_assoc in Hp'.
  assert (Ha2 : a ∈ handle <$> l ++ [Request a f d] ++ submitted acts).
  { rewrite !fmap_app. apply elem_of_app. right. apply elem_of_app. left.
    apply list_elem_of_singleton. done. }
  split_and!; try congruence.
  - destruct Hp' as (Hc & _). by eapply chain_allocated.
  - eexists. split; [apply eventfs_wq_free_pending; [|done]|].
    + apply Hrun'. congruence.
    + cbn [heap trace]. split_and!.
      * rewrite lookup_free_all. by rewrite decide_True.
      * rewrite !calls_of_app, calls_of_frees. cbn. rewrite app_nil_r. congruence.
      * rewrite !frees_of_app, frees_of_frees. cbn. rewrite app_nil_r. congruence.
Qed.

(** *** Draining the queue *)

Lemma eventfs_wreq_init_run a junk f d s :
  heap s !! a = Some junk ->
  eventfs_wreq_init (Some a) f d s =
    Some (0%Z, State (queue s) (<[a := wreq.mk f d None]> (heap s)) (world s) (trace s)).
Proof.
  intros Ha. unfold eventfs_wreq_init, load, store. unfold_m.
  rewrite Ha. cbn [heap queue world trace].
  rewrite !lookup_insert_eq. cbn [heap queue world trace].
  rewrite !lookup_insert_eq. cbn [heap queue world trace].
  rewrite !lookup_insert_eq. cbn [heap queue world trace].
  rewrite !lookup_insert_eq. cbn [heap queue world trace].
  by rewrite !insert_insert_eq.
Qed.

(** With an empty chain, a running worker uses up the posts left in the
    semaphore, five steps a turn, and then blocks in [sem_wait]. *)
Lemma worker_idle_rounds n th h w t :
  eventfs_wq_main_steps invoke (replicate (5 * n + 2) None) W_loop
    (State (wq.mk true th false n None None) h w t) =
  Some (W_wait, State (wq.mk true th false 0 None None) h w t).
Proof.
  induction n as [|n IH]; [done|].
  replace (5 * S n + 2) with (5 + (5 * n + 2)) by lia.
  rewrite replicate_add, eventfs_wq_main_steps_app. exact IH.
Qed.

(** A running worker past its wait detaches the chain, goes through it, uses
    up the posts left and blocks. *)
Lemma worker_drain s l :
  wq.running (queue s) = true ->
  wq.work_lock (queue s) = false ->
  pending s l ->
  Forall (fun r => is_Some (callback r)) l ->
  eventfs_wq_main_steps invoke (replicate (length l + 5 * wq.work_sem (queue s) + 5) None)
    W_cancelled s =
  Some (W_wait,
        State (wq.mk true (wq.thread (queue s)) false 0 None None)
              (free_all (handle <$> l) (heap s))
              (batch_trace invoke l (world s)).2
              (trace s ++ (batch_trace invoke l (world s)).1)).
Proof.
  intros Hrun Hlock Hp Hcb. pose proof (pending_NoDup _ _ Hp) as Hnd.
  destruct Hp as (Hc & Htl).
  replace (length l + 5 * wq.work_sem (queue s) + 5)
    with (2 + (S (length l) + (5 * wq.work_sem (queue s) + 2))) by lia.
  rewrite replicate_add, eventfs_wq_main_steps_app.
  assert (eventfs_wq_main_steps invoke (replicate 2 None) W_cancelled s =
          Some (W_work (wq.work (queue s)),
                State (wq.mk true (wq.thread (queue s)) false
                             (wq.work_sem (queue s)) None None)
                      (heap s) (world s) (trace s))) as ->.
  { assert (eventfs_wq_main_step invoke None W_cancelled s = Some (W_exchange, s)) as H1.
    { cbn [eventfs_wq_main_step]. unfold_m. by rewrite Hrun. }
    cbn [replicate]. rewrite (eventfs_wq_main_steps_cons _ _ _ _ _ _ H1).
    rewrite (eventfs_wq_main_steps_cons _ _ _ _ _ _ (eventfs_wq_main_step_exchange None s Hlock)).
    by rewrite Hrun. }
  rewrite replicate_add, eventfs_wq_main_steps_app.
  rewrite (eventfs_wq_main_steps_batch _ l); cbn [heap queue world trace];
    [|done|done|done|by rewrite length_replicate].
  apply worker_idle_rounds.
Qed.

Lemma eventfs_wq_main_step_loop_running inj s :
  wq.running (queue s) = true ->
  eventfs_wq_main_step invoke inj W_loop s = Some (W_trywait, s).
Proof. intros Hrun. cbn [eventfs_wq_main_step]. unfold_m. by rewrite Hrun. Qed.

Lemma eventfs_wq_main_step_trywait_post s n :
  wq.work_sem (queue s) = S n ->
  eventfs_wq_main_step invoke None W_trywait s =
    Some (W_cancelled, State (set_work_sem n (queue s)) (heap s) (world s) (trace s)).
Proof.
  intros Hsem. cbn [eventfs_wq_main_step]. unfold sem_trywait. unfold_m. by rewrite Hsem.
Qed.

Lemma eventfs_wq_main_step_wait_post s n :
  wq.work_sem (queue s) = S n ->
  eventfs_wq_main_step invoke None W_wait s =
    Some (W_cancelled, State (set_work_sem n (queue s)) (heap s) (world s) (trace s)).
Proof.
  intros Hsem. cbn [eventfs_wq_main_step]. unfold sem_wait. unfold_m. by rewrite Hsem.
Qed.

Lemma eventfs_wq_main_step_wait_blocked s :
  wq.work_sem (queue s) = 0 ->
  eventfs_wq_main_step invoke None W_wait s = None.
Proof.
  intros Hsem. cbn [eventfs_wq_main_step]. unfold sem_wait. unfold_m. by rewrite Hsem.
Qed.

(** A worker about to wait, or waiting, gets past its wait when the semaphore
    has a post, and uses it up. *)
Lemma worker_past_wait pc s n :
  pc = W_loop \/ pc = W_trywait \/ pc = W_wait ->
  wq.running (queue s) = true ->
  wq.work_sem (queue s) = S n ->
  exists k,
    eventfs_wq_main_steps invoke (replicate k None) pc s =
      Some (W_cancelled, State (set_work_sem n (queue s)) (heap s) (world s) (trace s)).
Proof.
  intros Hpc Hrun Hsem. destruct Hpc as [->|[->| ->]].
  - exists 2. cbn [replicate].
    rewrite (eventfs_wq_main_steps_cons _ _ _ _ _ _ (eventfs_wq_main_step_loop_running None s Hrun)).
    by rewrite (eventfs_wq_main_steps_cons _ _ _ _ _ _ (eventfs_wq_main_step_trywait_post s n Hsem)).
  - exists 1. cbn [replicate].
    by rewrite (eventfs_wq_main_steps_cons _ _ _ _ _ _ (eventfs_wq_main_step_trywait_post s n Hsem)).
  - exists 1. cbn [replicate].
    by rewrite (eventfs_wq_main_steps_cons _ _ _ _ _ _ (eventfs_wq_main_step_wait_post s n Hsem)).
Qed.

(** *** The worker gets through everything submitted *)

Lemma eventfs_wq_main_steps_trans k1 k2 pc s pc1 s1 pc2 s2 :
  eventfs_wq_main_steps invoke (replicate k1 None) pc s = Some (pc1, s1) ->
  eventfs_wq_main_steps invoke (replicate k2 None) pc1 s1 = Some (pc2, s2) ->
  eventfs_wq_main_steps invoke (replicate (k1 + k2) None) pc s = Some (pc2, s2).
Proof. intros H1 H2. by rewrite replicate_add, eventfs_wq_main_steps_app, H1. Qed.

(** A running worker that is not inside a batch, with a post in the
    semaphore whenever the chain is not empty, executes the chain and goes
    to wait on a semaphore at 0. *)
Lemma worker_settles_idle pc s l :
  pc = W_loop \/ pc = W_trywait \/ pc = W_wait ->
  wq.running (queue s) = true ->
  wq.work_lock (queue s) = false ->
  pending s l ->
  Forall (fun r => is_Some (callback r)) l ->
  (wq.work (queue s) <> None -> 1 <= wq.work_sem (queue s)) ->
  exists k,
    eventfs_wq_main_steps invoke (replicate k None) pc s =
      Some (W_wait,
            State (wq.mk true (wq.thread (queue s)) false 0 None None)
                  (free_all (handle <$> l) (heap s))
                  (batch_trace invoke l (world s)).2
                  (trace s ++ (batch_trace invoke l (world s)).1)).
Proof.
  intros Hpc Hrun Hlock Hp Hcb Hwake.
  destruct (wq.work_sem (queue s)) as [|n] eqn:Hsem.
  - assert (l = []) as ->.
    { destruct l as [|x l]; [done|]. destruct Hp as [[Hw _] _].
      rewrite Hw in Hwake. specialize (Hwake ltac:(done)). lia. }
    destruct Hp as [Hw Ht]. cbn in Hw, Ht.
    destruct s as [[rn th lk m w tl] h wd tr]. cbn in *. subst.
    rewrite app_nil_r.
    destruct Hpc as [->|[->| ->]].
    + exists 2. apply (worker_idle_rounds 0).
    + exists 1. reflexivity.
    + exists 0. reflexivity.
  - destruct (worker_past_wait pc s n Hpc Hrun Hsem) as [k1 Hk1].
    set (s1 := State (set_work_sem n (queue s)) (heap s) (world s) (trace s)) in Hk1.
    pose proof (worker_drain s1 l) as Hd.
    cbn [s1 queue heap world trace set_work_sem wq.running wq.work_lock wq.work_sem
         wq.thread] in Hd.
    specialize (Hd Hrun Hlock (pending_frame s s1 l eq_refl eq_refl (fun _ _ => eq_refl) Hp) Hcb).
    eexists. by eapply eventfs_wq_main_steps_trans.
Qed.

(** From any state of the interleaved system in which the queue is running,
    the worker has not returned and no post is owed, the worker left to
    itself executes what is left of its batch and the whole pending chain,
    and goes to wait: everything submitted has then been called, in
    order. *)
Lemma worker_settles c0 D s pc alive :
  sys_inv c0 D (Sys s pc alive) ->
  wakeup_inv 0 (Sys s pc alive) ->
  wq.running (queue s) = true ->
  pc <> W_return ->
  Forall (fun r => is_Some (callback r)) D ->
  exists k s',
    eventfs_wq_main_steps invoke (replicate k None) pc s = Some (W_wait, s') /\
    wq.work_sem (queue s') = 0 /\
    pending s' [] /\
    calls_of (trace s') = c0 ++ D.
Proof.
  intros (ex & lp & l & Hex & HD & Hlp & Hp & Hnd & Hlock) Hwake Hrun Hpc Hcb.
  cbn [sys_state sys_pc] in *. unfold wakeup_inv in Hwake. cbn [sys_state sys_pc] in Hwake.
  rewrite <- HD in Hcb. apply Forall_app in Hcb as [_ Hcb].
  apply Forall_app in Hcb as [Hcblp Hcbl].
  assert (Hidle : private_itr pc = None -> lp = []).
  { intros E. rewrite E in Hlp. by eapply chain_None_nil. }
  assert (Hfin : forall s1 l1 k,
            wq.running (queue s1) = true ->
            calls_of (trace s1) ++ l1 = c0 ++ D ->
            Forall (fun r => is_Some (callback r)) l1 ->
            eventfs_wq_main_steps invoke (replicate k None) pc s =
              Some (W_wait,
                    State (wq.mk true (wq.thread (queue s1)) false 0 None None)
                          (free_all (handle <$> l1) (heap s1))
                          (batch_trace invoke l1 (world s1)).2
                          (trace s1 ++ (batch_trace invoke l1 (world s1)).1)) ->
            exists k s',
              eventfs_wq_main_steps invoke (replicate k None) pc s = Some (W_wait, s') /\
              wq.work_sem (queue s') = 0 /\
              pending s' [] /\
              calls_of (trace s') = c0 ++ D).
  { intros s1 l1 k Hr1 Hc1 Hcb1 Hk. eexists k, _. split; [exact Hk|].
    split; [done|]. split; [done|].
    cbn [trace]. by rewrite calls_of_app, calls_of_batch_trace. }
  assert (Hcalls0 : lp = [] -> calls_of (trace s) ++ l = c0 ++ D).
  { intros ->. by rewrite Hex, <- HD, <- app_assoc. }
  destruct pc as [| | | | |p|]; [..|done].
  - destruct (worker_settles_idle W_loop s l) as [k Hk]; auto.
    { intros H. specialize (Hwake H). lia. }
    by apply (Hfin s l k); auto.
  - destruct (worker_settles_idle W_trywait s l) as [k Hk]; auto.
    { intros H. specialize (Hwake H). lia. }
    by apply (Hfin s l k); auto.
  - destruct (worker_settles_idle W_wait s l) as [k Hk]; auto.
    { intros H. specialize (Hwake H). lia. }
    by apply (Hfin s l k); auto.
  - apply (Hfin s l (length l + 5 * wq.work_sem (queue s) + 5) Hrun
             (Hcalls0 (Hidle eq_refl)) Hcbl).
    by apply worker_drain.
  - apply (Hfin s l (length l + 5 * wq.work_sem (queue s) + 4) Hrun
             (Hcalls0 (Hidle eq_refl)) Hcbl).
    pose proof (worker_drain s l Hrun Hlock Hp Hcbl) as Hd.
    replace (length l + 5 * wq.work_sem (queue s) + 5)
      with (S (length l + 5 * wq.work_sem (queue s) + 4)) in Hd by lia.
    cbn [replicate] in Hd.
    rewrite (eventfs_wq_main_steps_cons None _ W_cancelled s W_exchange s) in Hd; [done|].
    cbn [eventfs_wq_main_step]. unfold_m. by rewrite Hrun.
  - cbn [private_itr] in Hlp.
    rewrite fmap_app in Hnd. apply NoDup_app in Hnd as (Hndlp & Hdis & Hndl).
    set (s1 := State (queue s) (free_all (handle <$> lp) (heap s))
                     (batch_trace invoke lp (world s)).2
                     (trace s ++ (batch_trace invoke lp (world s)).1)).
    assert (Hb : eventfs_wq_main_steps invoke (replicate (S (length lp)) None) (W_work p) s =
                 Some (W_loop, s1)).
    { apply eventfs_wq_main_steps_batch; try done. by rewrite length_replicate. }
    assert (Hp1 : pending s1 l).
    { apply (pending_frame s); [done|done| |done]. intros b Hbl. cbn [s1 heap].
      rewrite lookup_free_all. rewrite decide_False; [done|].
      intros Hblp. by apply (Hdis b). }
    destruct (worker_settles_idle W_loop s1 l) as [k Hk]; auto.
    { intros H. specialize (Hwake H). cbn [s1 queue]. lia. }
    apply (Hfin s1 l (S (length lp) + k)); auto.
    + cbn [s1 trace]. rewrite calls_of_app, calls_of_batch_trace by done.
      by rewrite Hex, <- HD, <- !app_assoc.
    + by eapply eventfs_wq_main_steps_trans.
Qed.

(** C1. First in, first out.  Take a queue with an empty chain and a worker
    at the head of its loop, and any interleaving of submissions (allocation,
    [eventfs_wreq_init] and the locked part of [eventfs_wq_add]), posts of
    the semaphore, the clearing of the running flag, steps of the worker and
    a cancellation of the worker, whatever the semaphore operations and the
    callbacks answer.  Then the requests submitted, in the order of
    submission, are: first those whose callbacks the worker has invoked, in
    the order of invocation and with their handle and payload; then those of
    the batch the worker has detached and not yet gone through, in chain
    order; then those of the pending chain, in chain order.  In particular
    the calls made are a prefix of the submissions: a request submitted
    before another is never called after it.  And the worker does execute
    them: when the queue is still running, the worker is alive and has not
    returned, every request has a callback and every enqueue has made its
    post, the worker left to run detaches and executes everything that is
    not yet executed and then waits; the callbacks invoked since the start
    are then exactly the requests submitted, each once, in the order of
    submission. *)
Theorem worker_executes_in_submission_order acts s0 y :
  pending s0 [] ->
  wq.work_lock (queue s0) = false ->
  sys_run invoke acts (Sys s0 W_loop true) = Some y ->
  (exists ex lp l,
     calls_of (trace (sys_state y)) = calls_of (trace s0) ++ ex /\
     ex ++ lp ++ l = submitted acts /\
     ex `prefix_of` submitted acts /\
     chain (heap (sys_state y)) (private_itr (sys_pc y)) lp /\
     pending (sys_state y) l) /\
  (sys_alive y = true ->
   wq.running (queue (sys_state y)) = true ->
   sys_pc y <> W_return ->
   Forall (fun r => is_Some (callback r)) (submitted acts) ->
   due_after acts 0 = 0 ->
   exists k s',
     eventfs_wq_main_steps invoke (replicate k None) (sys_pc y) (sys_state y) =
       Some (W_wait, s') /\
     eventfs_wq_main_step invoke None W_wait s' = None /\
     pending s' [] /\
     calls_of (trace s') = calls_of (trace s0) ++ submitted acts).
Proof.
  intros Hp Hlock Hrun.
  pose proof (sys_inv_run _ _ _ _ _ (sys_inv_start s0 W_loop true [] Hp Hlock eq_refl) Hrun)
    as Hinv.
  split.
  - destruct Hinv as (ex & lp & l & Hex & HD & Hlp & Hpl & _ & _).
    cbn [app] in HD.
    exists ex, lp, l. split_and!; try done. exists (lp ++ l). by rewrite <- HD.
  - intros Halive Hrn Hpc Hcb Hdue.
    assert (Hw0 : wakeup_inv 0 (Sys s0 W_loop true)).
    { unfold wakeup_inv. cbn. destruct Hp as [Hw _]. cbn in Hw. by rewrite Hw. }
    pose proof (wakeup_inv_run _ _ _ _ Hw0 Hrun) as Hw. rewrite Hdue in Hw.
    destruct y as [s pc al]. cbn [sys_state sys_pc sys_alive] in *.
    destruct (worker_settles _ _ s pc al Hinv Hw Hrn Hpc Hcb) as (k & s' & Hk & Hsem & Hp' & Hc).
    exists k, s'. split; [done|]. split; [by apply eventfs_wq_main_step_wait_blocked|].
    by split.
Qed.

(** C2. Round trip.  Take a running queue with a well-formed pending chain
    [l] of requests that have callbacks, a worker about to wait or waiting,
    and an allocated node [a] outside the chain.  Constructing a request in
    [a] with [eventfs_wreq_init] for callback [C] and payload [P] and
    enqueuing it with [eventfs_wq_add] returns 0; the worker, left to run,
    then comes to block in [sem_wait] having invoked, after the callbacks of
    [l], the callback [C] on the handle [a] and the payload [P], once (no
    request of [l] has the handle [a]); the node [a] is released, the chain
    is empty; and whatever happens afterwards short of new submissions, no
    callback is invoked any more. *)
Theorem round_trip pc s l a junk C P :
  pc = W_loop \/ pc = W_trywait \/ pc = W_wait ->
  wq.running (queue s) = true ->
  wq.work_lock (queue s) = false ->
  pending s l ->
  Forall (fun r => is_Some (callback r)) l ->
  heap s !! a = Some junk ->
  a ∉ handle <$> l ->
  let req := Request a (Some C) P in
  exists s1 k s2,
    (eventfs_wreq_init (Some a) (Some C) P;; eventfs_wq_add (Some a)) s = Some (0%Z, s1) /\
    eventfs_wq_main_steps invoke (replicate k None) pc s1 = Some (W_wait, s2) /\
    eventfs_wq_main_step invoke None W_wait s2 = None /\
    trace s2 = trace s ++ (batch_trace invoke (l ++ [req]) (world s)).1 /\
    calls_of (trace s2) = calls_of (trace s) ++ l ++ [req] /\
    heap s2 !! a = None /\
    pending s2 [] /\
    forall acts y,
      submitted acts = [] ->
      sys_run invoke acts (Sys s2 W_wait true) = Some y ->
      calls_of (trace (sys_state y)) = calls_of (trace s2).
Proof.
  intros Hpc Hrun Hlock Hp Hcb Ha Hfresh req.
  set (s0 := State (queue s) (<[a := wreq.mk (Some C) P None]> (heap s)) (world s) (trace s)).
  assert (Hp0 : pending s0 l).
  { apply (pending_frame s); [done|done| |done]. intros b Hb. cbn [s0 heap].
    rewrite lookup_insert_ne; [done|]. intros E. by subst b. }
  destruct (eventfs_wq_add_pending s0 l a (Some C) P Hlock Hp0)
    as (s1 & Hadd & Hp1 & Hr1 & Hth1 & Hl1 & Hs1 & Hw1 & Ht1 & _ & _);
    [apply lookup_insert_eq|done|].
  cbn [s0 queue world trace] in Hr1, Hth1, Hs1, Hw1, Ht1.
  assert (Hcb1 : Forall (fun r => is_Some (callback r)) (l ++ [req])).
  { apply Forall_app. split; [done|]. apply Forall_singleton. by eexists. }
  set (n1 := pred (sem_posted (wq.work_sem (queue s)))).
  assert (Hs1' : wq.work_sem (queue s1) = S n1).
  { rewrite Hs1. pose proof (sem_posted_pos (wq.work_sem (queue s))). lia. }
  destruct (worker_past_wait pc s1 n1 Hpc) as [k1 Hk1];
    [by rewrite Hr1|done|].
  set (s1' := State (set_work_sem n1 (queue s1))
                    (heap s1) (world s1) (trace s1)) in Hk1.
  assert (Hp1' : pending s1' (l ++ [req])) by by apply (pending_frame s1).
  pose proof (worker_drain s1' (l ++ [req])) as Hdrain.
  cbn [s1' queue heap world trace set_work_sem wq.running wq.work_lock
       wq.work_sem wq.thread] in Hdrain.
  rewrite Hr1, Hrun, Hl1, Hw1, Ht1 in Hdrain.
  specialize (Hdrain eq_refl eq_refl Hp1' Hcb1).
  eexists s1, _, _. split_and!.
  - unfold_m. rewrite (eventfs_wreq_init_run a junk _ _ s Ha). exact Hadd.
  - rewrite replicate_add, eventfs_wq_main_steps_app, Hk1. exact Hdrain.
  - by apply eventfs_wq_main_step_wait_blocked.
  - done.
  - cbn [trace]. by rewrite calls_of_app, calls_of_batch_trace.
  - cbn [heap]. rewrite lookup_free_all. rewrite decide_True; [done|].
    rewrite fmap_app. apply elem_of_app. right. by apply list_elem_of_singleton.
  - done.
  - intros acts y Hsub Hacts.
    match type of Hacts with sys_run _ _ (Sys ?s2 _ _) = _ =>
      assert (Hinv : sys_inv (calls_of (trace s2)) [] (Sys s2 W_wait true))
    end.
    { by apply sys_inv_start. }
    pose proof (sys_inv_run _ _ _ _ _ Hinv Hacts) as (ex & lp & l' & Hex & HD & _).
    rewrite Hsub in HD. cbn [app] in HD.
    apply app_eq_nil in HD as [-> _]. by rewrite app_nil_r in Hex.
Qed.

End Properties.

(** ** Further properties of the life cycle and of the worker *)

Section LifeCycle.
Context {World : Type}.
Variable invoke : fn -> loc -> data -> World -> World * Z.
Implicit Types (s : @state World) (l : list request).

(** X1. [eventfs_wq_init] zeroes the structure whatever it held, touches no
    work request (a chain the structure pointed to is neither called nor
    released) and returns 0 exactly when the mutex could be constructed: a
    failure of the mutex gives [-abs(rc)], which is negative, and the
    semaphore is then not constructed; a failure of [sem_init] is not looked
    at and the function still returns 0. *)
Theorem eventfs_wq_init_result env s :
  exists rc t,
    eventfs_wq_init env s = Some (rc, State wq.zero (heap s) (world s) (trace s ++ t)) /\
    (rc = 0%Z <-> mutex_init_rc env = 0%Z) /\
    (rc <= 0)%Z /\
    (mutex_init_rc env <> 0%Z -> rc = (- Z.abs (mutex_init_rc env))%Z /\ t = []) /\
    (mutex_init_rc env = 0%Z ->
     t = ev_mutex_init :: (if (sem_init_rc env =? 0)%Z then [ev_sem_init] else [])).
Proof.
  unfold eventfs_wq_init, pthread_mutex_init, sem_init. unfold_m.
  destruct (Z.eqb_spec (mutex_init_rc env) 0) as [E|E].
  - rewrite E. cbn.
    destruct (sem_init_rc env =? 0)%Z; cbn; eexists _, _;
      (split; [rewrite <- ?app_assoc; reflexivity|]); split_and!; try done.
  - cbn. apply Z.eqb_neq in E as E'. rewrite E'. cbn.
    eexists _, []. rewrite app_nil_r. split; [reflexivity|].
    split_and!; try done; lia.
Qed.

Lemma eventfs_wq_stop_run s :
  wq.running (queue s) = true ->
  eventfs_wq_stop s =
    Some (0%Z, State (set_work_sem (sem_posted (wq.work_sem (queue s)))
                                   (set_running false (queue s)))
                     (heap s) (world s)
                     (trace s ++ [ev_pthread_cancel (wq.thread (queue s));
                                  ev_pthread_join (wq.thread (queue s))])).
Proof.
  intros Hrun. unfold eventfs_wq_stop. unfold_m. rewrite Hrun. cbn.
  rewrite sem_post_run. cbn. by rewrite <- app_assoc.
Qed.

Lemma sys_inv_destroy c0 D s pc alive :
  sys_inv c0 D (Sys s pc alive) ->
  wq.running (queue s) = false ->
  exists ex lp l s',
    calls_of (trace s) = c0 ++ ex /\
    ex ++ lp ++ l = D /\
    eventfs_wq_free s = Some (0%Z, s') /\
    queue s' = wq.zero /\
    calls_of (trace s') = calls_of (trace s) /\
    frees_of (trace s') = frees_of (trace s) ++ (handle <$> l) /\
    (forall r, r ∈ l -> heap s' !! handle r = None) /\
    (forall r, r ∈ lp -> heap s' !! handle r = heap s !! handle r /\
                         is_Some (heap s' !! handle r)).
Proof.
  intros (ex & lp & l & Hex & HD & Hlp & Hpl & Hnd & _) Hrn.
  cbn [sys_state sys_pc] in *.
  exists ex, lp, l. eexists. split; [done|]. split; [done|].
  split; [by apply eventfs_wq_free_pending|]. cbn [queue trace heap].
  split; [done|].
  split. { by rewrite !calls_of_app, calls_of_frees, app_nil_r. }
  split. { by rewrite !frees_of_app, frees_of_frees, app_nil_r. }
  split.
  - intros r Hr. rewrite lookup_free_all. rewrite decide_True; [done|].
    by apply list_elem_of_fmap_2.
  - intros r Hr. rewrite lookup_free_all.
    rewrite fmap_app in Hnd. apply NoDup_app in Hnd as (_ & Hdis & _).
    assert (Hin : handle r ∈ handle <$> lp) by by apply list_elem_of_fmap_2.
    rewrite decide_False by by apply Hdis.
    split; [done|]. by eapply chain_allocated.
Qed.

Lemma eventfs_wq_main_step_running inj pc s pc' s' :
  eventfs_wq_main_step invoke inj pc s = Some (pc', s') ->
  wq.running (queue s') = wq.running (queue s).
Proof.
  destruct pc as [| | | | |[a|]|].
  - cbn [eventfs_wq_main_step]. unfold_m. intros H. by mcases.
  - cbn [eventfs_wq_main_step]. unfold sem_trywait. unfold_m. intros H. by mcases.
  - cbn [eventfs_wq_main_step]. unfold sem_wait. unfold_m. intros H. by mcases.
  - cbn [eventfs_wq_main_step]. unfold_m. intros H. by mcases.
  - cbn [eventfs_wq_main_step].
    unfold eventfs_wq_main_exchange, pthread_mutex_lock, pthread_mutex_unlock.
    unfold_m. intros H. by mcases.
  - cbn [eventfs_wq_main_step]. unfold_m.
    destruct (eventfs_wq_main_work invoke a s) as [[nx s2]|] eqn:E; [|done].
    intros [= <- <-]. apply eventfs_wq_main_work_queue in E. by rewrite E.
  - cbn [eventfs_wq_main_step]. unfold_m. by intros [= <- <-].
  - cbn [eventfs_wq_main_step]. unfold_m. by intros [= <- <-].
Qed.

(** Steps of the worker keep the invariant of the system and the running
    flag. *)
Lemma sys_inv_steps c0 D injs pc s pc' s' :
  sys_inv c0 D (Sys s pc true) ->
  eventfs_wq_main_steps invoke injs pc s = Some (pc', s') ->
  sys_inv c0 D (Sys s' pc' true) /\
  wq.running (queue s') = wq.running (queue s).
Proof.
  revert pc s. induction injs as [|inj injs IH]; intros pc s Hinv.
  - cbn. unfold_m. by intros [= <- <-].
  - cbn [eventfs_wq_main_steps]. unfold_m.
    destruct (eventfs_wq_main_step invoke inj pc s) as [[pc1 s1]|] eqn:Hstep; [|done].
    intros Hsteps.
    assert (Hinv1 : sys_inv c0 D (Sys s1 pc1 true)).
    { apply (sys_inv_worker invoke c0 D inj (Sys s pc true)); [done|].
      cbn [sys_step sys_alive sys_pc sys_state]. by rewrite Hstep. }
    destruct (IH pc1 s1 Hinv1 Hsteps) as [Hinv' Hrn].
    split; [done|]. rewrite Hrn. by eapply eventfs_wq_main_step_running.
Qed.

(** X2. A full life cycle, whatever the worker does.  On a queue that is not
    running, with a well-formed pending chain [l], a start whose thread
    creation succeeds returns 0.  Let the system run any interleaving from
    there (the new worker at the head of its loop, producers submitting and
    posting), the queue still running: [eventfs_wq_stop] returns 0.  Let the
    worker make any further steps before the cancellation ends it:
    [eventfs_wq_free] returns 0.  The requests of [l] and those submitted
    since are then, in order: those the worker has called; those of the
    batch it held at the end, which stay allocated; and those still pending,
    which the destruction releases, calling nothing. *)
Theorem start_stop_free env s l :
  wq.running (queue s) = false ->
  wq.work_lock (queue s) = false ->
  create_rc env = 0%Z ->
  pending s l ->
  exists s1,
    eventfs_wq_start env s = Some (0%Z, s1) /\
    forall acts y,
      sys_run invoke acts (Sys s1 W_loop true) = Some y ->
      wq.running (queue (sys_state y)) = true ->
      exists s2,
        eventfs_wq_stop (sys_state y) = Some (0%Z, s2) /\
        forall injs pc' s3,
          eventfs_wq_main_steps invoke injs (sys_pc y) s2 = Some (pc', s3) ->
          exists ex lp l' s4,
            calls_of (trace s3) = calls_of (trace s) ++ ex /\
            ex ++ lp ++ l' = l ++ submitted acts /\
            eventfs_wq_free s3 = Some (0%Z, s4) /\
            queue s4 = wq.zero /\
            calls_of (trace s4) = calls_of (trace s3) /\
            frees_of (trace s4) = frees_of (trace s3) ++ (handle <$> l') /\
            (forall r, r ∈ l' -> heap s4 !! handle r = None) /\
            (forall r, r ∈ lp -> heap s4 !! handle r = heap s3 !! handle r /\
                                 is_Some (heap s4 !! handle r)).
Proof.
  intros Hrn Hlock Hrc Hp.
  eexists. split; [by apply eventfs_wq_start_spawn_success|].
  intros acts y Hrun Hrny.
  match type of Hrun with sys_run _ _ (Sys ?s1 _ _) = _ =>
    assert (Hinv1 : sys_inv (calls_of (trace s)) l (Sys s1 W_loop true))
  end.
  { replace (calls_of (trace s)) with
      (calls_of (trace s ++ [ev_pthread_create (create_thread env)]))
      by (rewrite calls_of_app; cbn; by rewrite app_nil_r).
    apply (sys_inv_start
             (State (set_thread (create_thread env) (set_running true (queue s)))
                    (heap s) (world s)
                    (trace s ++ [ev_pthread_create (create_thread env)]))
             W_loop true l); [|done|done].
    by apply (pending_frame s). }
  pose proof (sys_inv_run _ _ _ _ _ _ Hinv1 Hrun) as Hinv.
  destruct y as [sy pc al]. cbn [sys_state sys_pc] in *.
  eexists. split; [by apply eventfs_wq_stop_run|].
  intros injs pc' s3 Hsteps.
  match type of Hsteps with eventfs_wq_main_steps _ _ _ ?s2 = _ =>
    assert (Hinv2 : sys_inv (calls_of (trace s)) (l ++ submitted acts) (Sys s2 pc true))
  end.
  { destruct Hinv as (ex & lp & l' & Hex & HD & Hlp & Hpl & Hnd & Hlk).
    cbn [sys_state sys_pc] in *.
    exists ex, lp, l'. cbn [sys_state sys_pc heap queue trace].
    split. { rewrite calls_of_app. cbn. by rewrite app_nil_r. }
    split; [done|]. split; [done|].
    split; [by apply (pending_frame sy)|]. by split. }
  destruct (sys_inv_steps _ _ _ _ _ _ _ Hinv2 Hsteps) as [Hinv3 Hrn3].
  cbn [queue set_work_sem set_running wq.running] in Hrn3.
  by apply (sys_inv_destroy _ _ s3 pc' true).
Qed.


(** X4. The inner loop does not look at the running flag: a worker that
    holds a detached batch when the flag is cleared still goes through the
    whole batch (every request called, in order, and released), and only
    then returns at its loop test. *)
Theorem batch_completes_after_stop injs inj l p s :
  chain (heap s) p l ->
  Forall (fun r => is_Some (callback r)) l ->
  length injs = S (length l) ->
  wq.running (queue s) = false ->
  let t := (batch_trace invoke l (world s)).1 in
  eventfs_wq_main_steps invoke (injs ++ [inj]) (W_work p) s =
    Some (W_return,
          State (queue s) (free_all (handle <$> l) (heap s))
                (batch_trace invoke l (world s)).2 (trace s ++ t)) /\
  calls_of t = l /\ frees_of t = handle <$> l.
Proof.
  intros Hc Hcb Hlen Hrun. cbn zeta. split_and!.
  - rewrite eventfs_wq_main_steps_app.
    rewrite (eventfs_wq_main_steps_batch _ _ l); [|done|by eapply chain_NoDup|done|done].
    cbn [eventfs_wq_main_steps eventfs_wq_main_step]. unfold_m. cbn. by rewrite Hrun.
  - by apply calls_of_batch_trace.
  - by apply frees_of_batch_trace.
Qed.

(** X5. Posts without work are harmless.  A running worker on an empty chain
    with [n] posts in the semaphore makes [n] turns of its loop, each
    detaching the empty chain, and then blocks in [sem_wait] with the
    semaphore at 0; the heap, the world and the trace are as they were. *)
Theorem spurious_posts_are_harmless s :
  wq.running (queue s) = true ->
  wq.work_lock (queue s) = false ->
  wq.work (queue s) = None ->
  wq.tail (queue s) = None ->
  let s' := State (set_work_sem 0 (queue s)) (heap s) (world s) (trace s) in
  eventfs_wq_main_steps invoke (replicate (5 * wq.work_sem (queue s) + 2) None) W_loop s =
    Some (W_wait, s') /\
  eventfs_wq_main_step invoke None W_wait s' = None.
Proof.
  destruct s as [[rn th lk n w tl] h wd tr]. cbn. intros -> -> -> ->.
  split; [apply worker_idle_rounds|done].
Qed.

(** X6. A failed thread creation is undone.  [eventfs_wq_start] then leaves
    the running flag false, the chain, the semaphore and the heap as they
    were, logs the error and returns [-errno]; a second call whose thread
    creation succeeds is not rejected as already running: it returns 0 with
    the flag set and the new thread handle stored. *)
Theorem start_failure_then_retry env env' s :
  wq.running (queue s) = false ->
  create_rc env <> 0%Z ->
  create_rc env' = 0%Z ->
  exists s1 s2,
    eventfs_wq_start env s = Some ((- create_errno env)%Z, s1) /\
    wq.running (queue s1) = false /\
    wq.work (queue s1) = wq.work (queue s) /\
    wq.tail (queue s1) = wq.tail (queue s) /\
    wq.work_sem (queue s1) = wq.work_sem (queue s) /\
    heap s1 = heap s /\
    trace s1 = trace s ++ [ev_error_pthread_create (- create_errno env)] /\
    eventfs_wq_start env' s1 = Some (0%Z, s2) /\
    wq.running (queue s2) = true /\
    wq.thread (queue s2) = create_thread env' /\
    trace s2 = trace s1 ++ [ev_pthread_create (create_thread env')].
Proof.
  intros Hrun Hrc Hrc'.
  eexists _, _. split; [by apply eventfs_wq_start_spawn_failure|].
  cbn [queue heap trace set_thread wq.running wq.work wq.tail wq.work_sem].
  do 6 (split; [done|]).
  split; [by apply eventfs_wq_start_spawn_success|]. done.
Qed.

(** *** The interleaved system *)

(** X7. No lost wake-up.  From a queue with an empty chain and a worker at
    the head of its loop, after any interleaving (submissions, posts, stop
    flag, cancellation, worker steps with any failures): a worker that
    stands at its loop test, at [sem_trywait] or in [sem_wait] while the
    chain is not empty finds a post in the semaphore, or some producer is
    still between the unlock and its [sem_post].  So once the posts have
    caught up with the submissions, a worker blocked in [sem_wait] on a
    semaphore at 0 faces an empty chain. *)
Theorem no_lost_wakeup acts s0 y :
  wq.work (queue s0) = None ->
  sys_run invoke acts (Sys s0 W_loop true) = Some y ->
  (sys_pc y = W_loop \/ sys_pc y = W_trywait \/ sys_pc y = W_wait ->
   wq.work (queue (sys_state y)) <> None ->
   1 <= wq.work_sem (queue (sys_state y)) + due_after acts 0) /\
  (sys_pc y = W_wait ->
   wq.work_sem (queue (sys_state y)) = 0 ->
   due_after acts 0 = 0 ->
   wq.work (queue (sys_state y)) = None).
Proof.
  intros Hw Hrun.
  assert (Hinv0 : wakeup_inv 0 (Sys s0 W_loop true)).
  { unfold wakeup_inv. cbn. by rewrite Hw. }
  pose proof (wakeup_inv_run invoke _ _ _ _ Hinv0 Hrun) as Hinv. unfold wakeup_inv in Hinv.
  split.
  - intros [Hpc|[Hpc|Hpc]]; rewrite Hpc in Hinv; exact Hinv.
  - intros Hpc Hsem Hdue. rewrite Hpc in Hinv.
    destruct (wq.work (queue (sys_state y))) as [a|] eqn:E; [|done].
    specialize (Hinv ltac:(done)). lia.
Qed.

(** Every action extends the trace, by as many releases as calls and of the
    same nodes. *)
Lemma sys_step_trace a y y' :
  sys_step invoke a y = Some y' ->
  exists t, trace (sys_state y') = trace (sys_state y) ++ t /\
            frees_of t = handle <$> calls_of t.
Proof.
  destruct y as [s pc al].
  destruct a as [wreq junk f w| | | |inj]; cbn [sys_step sys_state sys_pc sys_alive].
  - destruct (heap s !! wreq) as [r|] eqn:Ha.
    { rewrite submit_fault by eauto. done. }
    rewrite submit_run by done.
    unfold eventfs_wq_add_locked, pthread_mutex_lock, pthread_mutex_unlock, load, store.
    unfold_m. intros H. exists []. mcases; by rewrite app_nil_r.
  - rewrite sem_post_run. intros [= <-]. exists []. cbn. by rewrite app_nil_r.
  - cbn. intros [= <-]. exists []. cbn. by rewrite app_nil_r.
  - intros [= <-]. exists []. cbn. by rewrite app_nil_r.
  - destruct al; [|intros [= <-]; exists []; cbn; by rewrite app_nil_r].
    destruct (eventfs_wq_main_step invoke inj pc s) as [[pc' s']|] eqn:Hstep; [|done].
    intros [= <-]. cbn [sys_state]. revert Hstep.
    destruct pc as [| | | | |[a|]|].
    + cbn [eventfs_wq_main_step]. unfold_m. intros H. exists [].
      mcases; by rewrite app_nil_r.
    + cbn [eventfs_wq_main_step]. unfold sem_trywait. unfold_m. intros H.
      mcases; first [by eexists [_] | exists []; by rewrite app_nil_r].
    + cbn [eventfs_wq_main_step]. unfold sem_wait. unfold_m. intros H. exists [].
      mcases; by rewrite app_nil_r.
    + cbn [eventfs_wq_main_step]. unfold_m. intros H. exists [].
      mcases; by rewrite app_nil_r.
    + cbn [eventfs_wq_main_step].
      unfold eventfs_wq_main_exchange, pthread_mutex_lock, pthread_mutex_unlock.
      unfold_m. intros H. exists []. mcases; by rewrite app_nil_r.
    + destruct (heap s !! a) as [r|] eqn:Hr.
      2:{ rewrite eventfs_wq_main_step_work_fault by by left. done. }
      destruct (wreq.work r) as [f|] eqn:Hf.
      2:{ rewrite eventfs_wq_main_step_work_fault; [done|]. right. eauto. }
      rewrite (eventfs_wq_main_step_work _ _ _ f inj s Hr Hf). intros [= <- <-].
      eexists. split; [reflexivity|].
      by rewrite frees_of_work_trace, calls_of_work_trace.
    + cbn [eventfs_wq_main_step]. unfold_m. intros [= <- <-]. exists [].
      by rewrite app_nil_r.
    + cbn [eventfs_wq_main_step]. unfold_m. intros [= <- <-]. exists [].
      by rewrite app_nil_r.
Qed.

(** X8. Who releases what.  Along any interleaving in which the worker is
    not cancelled, seen between two steps of the worker, the trace only
    grows, and what it grows by has one release for each callback
    invocation, of the node the callback was invoked on and in the same
    order: the worker releases exactly the nodes it has executed, and
    nothing else in the system (enqueue, post, stop) ever releases a node.
    (A cancellation can end the worker inside the execution of a request,
    after the call and before the release; the actions of [sys_step] do not
    have that case, and the statement leaves it out.) *)
Theorem releases_follow_calls acts y y' :
  Forall (fun a => a <> a_cancel) acts ->
  sys_run invoke acts y = Some y' ->
  exists t, trace (sys_state y') = trace (sys_state y) ++ t /\
            frees_of t = handle <$> calls_of t.
Proof.
  intros _. revert y. induction acts as [|a acts IH]; intros y; cbn [sys_run].
  - intros [= <-]. exists []. by rewrite app_nil_r.
  - destruct (sys_step invoke a y) as [y1|] eqn:Hstep; [|done]. intros Hrun.
    apply sys_step_trace in Hstep as (t1 & Ht1 & Hf1).
    apply IH in Hrun as (t2 & Ht2 & Hf2).
    exists (t1 ++ t2). rewrite Ht2, Ht1, <- app_assoc. split; [done|].
    by rewrite frees_of_app, calls_of_app, fmap_app, Hf1, Hf2.
Qed.

(** X9. No memory fault along a run.  From a well-formed queue, after any
    interleaving in which every request carries a callback: an enqueue of a
    request at an address that is not allocated has a result (it never
    follows a stale tail), and a step of the worker fails to have one only
    when the worker sits in [sem_wait] with the semaphore at 0 and no
    failure injected, that is, when it is blocked: it never reads a released
    or unallocated node and never calls through NULL. *)
Theorem run_has_no_memory_fault acts s0 l0 y :
  pending s0 l0 ->
  wq.work_lock (queue s0) = false ->
  Forall (fun x => is_Some (callback x)) (l0 ++ submitted acts) ->
  sys_run invoke acts (Sys s0 W_loop true) = Some y ->
  (forall a junk f d, heap (sys_state y) !! a = None ->
     is_Some (sys_step invoke (a_submit a junk f d) y)) /\
  (forall inj, sys_step invoke (a_worker inj) y = None ->
     sys_alive y = true /\ sys_pc y = W_wait /\ inj = None /\
     wq.work_sem (queue (sys_state y)) = 0).
Proof.
  intros Hp Hlock Hcb Hrun.
  pose proof (sys_inv_run _ _ _ _ _ _ (sys_inv_start s0 W_loop true l0 Hp Hlock eq_refl) Hrun)
    as Hinv.
  split.
  - intros a junk f d Ha. by eapply submit_progress.
  - intros inj. destruct y as [s pc al]. cbn [sys_step sys_alive sys_pc sys_state].
    destruct al; [|done].
    destruct (eventfs_wq_main_step invoke inj pc s) as [[pc' s']|] eqn:Hstep; [done|].
    intros _.
    destruct (worker_progress _ _ _ _ _ _ _ Hinv Hstep) as [(-> & -> & Hsem)|(x & -> & _ & _)];
      [done|].
    exfalso.
    destruct Hinv as (ex & lp & l & _ & HD & Hlp & _).
    cbn [sys_state sys_pc private_itr] in Hlp.
    destruct lp as [|x' lp]; [done|].
    destruct Hlp as (Hh & nx & Hx & _). rewrite Hh in Hstep.
    assert (Hin : x' ∈ l0 ++ submitted acts).
    { rewrite <- HD. set_solver. }
    rewrite Forall_forall in Hcb. destruct (Hcb _ Hin) as [f Hf].
    rewrite (eventfs_wq_main_step_work invoke _ _ f inj s Hx Hf) in Hstep. done.
Qed.

(** X10. Destruction after a run.  From a well-formed queue, after any
    interleaving that leaves the running flag false, [eventfs_wq_free]
    called with the worker at rest has a result and returns 0.  The
    requests submitted split, in order, into those executed, those of the
    batch the worker had detached and not finished, and those pending:
    destruction releases the pending ones without invoking anything, zeroes
    the structure, and does not reach the detached ones, which stay
    allocated. *)
Theorem destroy_after_run acts s0 l0 y :
  pending s0 l0 ->
  wq.work_lock (queue s0) = false ->
  sys_run invoke acts (Sys s0 W_loop true) = Some y ->
  wq.running (queue (sys_state y)) = false ->
  exists ex lp l s',
    calls_of (trace (sys_state y)) = calls_of (trace s0) ++ ex /\
    ex ++ lp ++ l = l0 ++ submitted acts /\
    eventfs_wq_free (sys_state y) = Some (0%Z, s') /\
    queue s' = wq.zero /\
    calls_of (trace s') = calls_of (trace (sys_state y)) /\
    frees_of (trace s') = frees_of (trace (sys_state y)) ++ (handle <$> l) /\
    (forall r, r ∈ l -> heap s' !! handle r = None) /\
    (forall r, r ∈ lp -> heap s' !! handle r = heap (sys_state y) !! handle r /\
                         is_Some (heap s' !! handle r)).
Proof.
  intros Hp Hlock Hrun Hrn.
  pose proof (sys_inv_run _ _ _ _ _ _ (sys_inv_start s0 W_loop true l0 Hp Hlock eq_refl) Hrun)
    as Hinv.
  destruct y as [s pc al]. by eapply sys_inv_destroy.
Qed.

End LifeCycle.

(** ** Ill-formed chains and the NULL request *)

Section Edges.
Context {World : Type}.
Implicit Types (s : @state World) (h : gmap loc wreq.t) (l : list request).

Lemma chain_delete_inv h p l a : chain (delete a h) p l -> chain h p l.
Proof.
  revert p. induction l as [|x l IH]; intros p; cbn; [done|].
  intros (-> & nx & Hx & Hc). split; [done|]. exists nx.
  apply lookup_delete_Some in Hx as [_ Hx]. split; [done|]. by apply IH.
Qed.

Lemma eventfs_wq_queue_free_loop_inv fuel p s u s' :
  eventfs_wq_queue_free_loop fuel p s = Some (u, s') ->
  exists l, chain (heap s) p l.
Proof.
  revert p s. induction fuel as [|fuel IH]; intros [a|] s.
  - done.
  - intros _. by exists [].
  - destruct (heap s !! a) as [r|] eqn:Hr.
    + rewrite (eventfs_wq_queue_free_loop_turn _ a r s Hr). intros H.
      apply IH in H as [l Hl]. cbn [heap] in Hl. apply chain_delete_inv in Hl.
      exists (Request a (wreq.work r) (wreq.work_data r) :: l). cbn.
      split; [done|]. exists (wreq.next r). by destruct r.
    + by rewrite eventfs_wq_queue_free_loop_fault.
  - intros _. by exists [].
Qed.

Lemma eventfs_wq_free_not_running s :
  wq.running (queue s) = false ->
  eventfs_wq_free s =
    match eventfs_wq_queue_free (wq.work (queue s)) s with
    | Some (_, s1) =>
        Some (0%Z, State wq.zero (heap s1) (world s1)
                         ((trace s1 ++ [ev_mutex_destroy]) ++ [ev_sem_destroy]))
    | None => None
    end.
Proof.
  intros Hrn. unfold eventfs_wq_free. unfold_m. simpl. rewrite Hrn.
  by destruct (eventfs_wq_queue_free _ s) as [[? ?]|].
Qed.

(** X11. [eventfs_wq_queue_free] has a result exactly when its argument
    heads a NULL-terminated chain of allocated nodes; on a chain that runs
    into a released node or loops back on itself it has none.  When it has
    one it returns 0, has released the nodes of the chain, head first, and
    no other node, and has touched nothing else.  So [eventfs_wq_free] on a
    queue that is not running has a result exactly when the head of the
    queue heads such a chain; the tail pointer plays no part. *)
Theorem eventfs_wq_queue_free_defined p s :
  (is_Some (eventfs_wq_queue_free p s) <-> exists l, chain (heap s) p l) /\
  (forall l, chain (heap s) p l ->
     eventfs_wq_queue_free p s =
       Some (0%Z, State (queue s) (free_all (handle <$> l) (heap s)) (world s)
                        (trace s ++ (ev_free <$> (handle <$> l)))) /\
     (forall b, b ∉ handle <$> l -> free_all (handle <$> l) (heap s) !! b = heap s !! b) /\
     (forall b, b ∈ handle <$> l -> free_all (handle <$> l) (heap s) !! b = None)) /\
  (wq.running (queue s) = false ->
   (is_Some (eventfs_wq_free s) <-> exists l, chain (heap s) (wq.work (queue s)) l)).
Proof.
  assert (Hiff : forall p, is_Some (eventfs_wq_queue_free p s) <->
                           exists l, chain (heap s) p l).
  { intros p'. split.
    - intros [[rc s'] H]. revert H. unfold eventfs_wq_queue_free. unfold_m.
      destruct (eventfs_wq_queue_free_loop _ p' s) as [[u s1]|] eqn:E; [|done].
      intros _. by eapply eventfs_wq_queue_free_loop_inv.
    - intros [l Hl]. rewrite (eventfs_wq_queue_free_chain l); [done..|].
      by eapply chain_NoDup. }
  split; [apply Hiff|]. split.
  - intros l Hl. split; [|split].
    + apply eventfs_wq_queue_free_chain; [done|]. by eapply chain_NoDup.
    + intros b Hb. rewrite lookup_free_all. by rewrite decide_False.
    + intros b Hb. rewrite lookup_free_all. by rewrite decide_True.
  - intros Hrn. rewrite <- Hiff. rewrite (eventfs_wq_free_not_running s Hrn).
    destruct (eventfs_wq_queue_free _ s) as [[? ?]|]; split; intros [? ?]; done.
Qed.

(** A chain holds no node that points to itself. *)
Lemma chain_self_loop h p l a ra :
  chain h p l -> a ∈ handle <$> l -> h !! a = Some ra -> wreq.next ra = Some a -> False.
Proof.
  revert p. induction l as [|x l IH]; intros p Hc Hin Ha Hnx.
  - by apply elem_of_nil in Hin.
  - pose proof Hc as Hc'. destruct Hc as (-> & nx & Hx & Hc).
    rewrite fmap_cons in Hin. apply elem_of_cons in Hin as [->|Hin].
    + rewrite Ha in Hx. injection Hx as ->. cbn in Hnx. subst nx.
      pose proof (chain_unique _ _ _ _ Hc Hc') as Heq.
      apply (f_equal length) in Heq. cbn in Heq. lia.
    + by eapply IH.
Qed.

(** A chain read in a heap that agrees with [h] before the last node of a
    chain of [h] goes through that last node. *)
Lemma chain_reaches h h' p l x l2 :
  chain h p (l ++ [x]) ->
  (forall b, b ∈ handle <$> l -> h' !! b = h !! b) ->
  chain h' p l2 ->
  handle x ∈ handle <$> l2.
Proof.
  revert p l2. induction l as [|z l IH]; intros p l2 Hc Hag Hc2.
  - destruct Hc as (-> & _). destruct l2 as [|y l2]; [done|].
    destruct Hc2 as ([= ->] & _). rewrite fmap_cons. apply elem_of_cons. by left.
  - destruct Hc as (-> & nx & Hz & Hc). destruct l2 as [|y l2]; [done|].
    destruct Hc2 as ([= Hy] & nx' & Hy' & Hc2).
    rewrite <- Hy, Hag, Hz in Hy' by (rewrite fmap_cons; apply elem_of_cons; by left).
    injection Hy' as _ _ ->.
    rewrite fmap_cons. apply elem_of_cons. right.
    eapply IH; [done| |done].
    intros b Hb. apply Hag. rewrite fmap_cons. apply elem_of_cons. by right.
Qed.

(** X12. Enqueueing the same request twice in a row is accepted (both
    calls return 0, each posts the semaphore: two more in the count when it
    is two or more below [SEM_VALUE_MAX]) and leaves the request pointing to
    itself at the tail of the chain: the chain has no end any more, and
    [eventfs_wq_free] of the queue has no defined result (it releases the
    node and then reads it again). *)
Theorem double_enqueue_breaks_destroy s l a f d :
  wq.work_lock (queue s) = false ->
  wq.running (queue s) = false ->
  pending s l ->
  heap s !! a = Some (wreq.mk f d None) ->
  a ∉ handle <$> l ->
  exists s1 s2,
    eventfs_wq_add (Some a) s = Some (0%Z, s1) /\
    eventfs_wq_add (Some a) s1 = Some (0%Z, s2) /\
    wq.work_sem (queue s2) = sem_posted (sem_posted (wq.work_sem (queue s))) /\
    ((Z.of_nat (wq.work_sem (queue s)) + 1 < SEM_VALUE_MAX)%Z ->
     wq.work_sem (queue s2) = S (S (wq.work_sem (queue s)))) /\
    wq.tail (queue s2) = Some a /\
    heap s2 !! a = Some (wreq.mk f d (Some a)) /\
    (forall l2, ~ chain (heap s2) (wq.work (queue s2)) l2) /\
    eventfs_wq_free s2 = None.
Proof.
  intros Hlock Hrn Hp Ha Hnotin.
  destruct (eventfs_wq_add_pending s l a f d Hlock Hp Ha Hnotin)
    as (s1 & Hadd1 & Hp1 & Hrn1 & _ & Hlock1 & Hsem1 & _ & _ & Hh1 & _).
  pose proof Hp1 as [Hc1 Ht1].
  rewrite fmap_app in Ht1. change (handle <$> [Request a f d]) with [a] in Ht1.
  rewrite last_snoc in Ht1.
  assert (Ha1 : heap s1 !! a = Some (wreq.mk f d None)) by by rewrite Hh1.
  assert (Hhd : exists hd, wq.work (queue s1) = Some hd).
  { destruct l; destruct Hc1 as [-> _]; eauto. }
  destruct Hhd as [hd Hhd].
  pose proof (eventfs_wq_add_locked_append (Some a) s1 hd a _ Hlock1 Hhd Ht1 Ha1) as Hadd2.
  apply eventfs_wq_add_after_locked in Hadd2. cbn [queue heap world trace] in Hadd2.
  eexists s1, _. split; [done|]. split; [exact Hadd2|]. cbn [queue heap wq.work_sem wq.tail wq.work set_work_sem].
  split; [by rewrite Hsem1|].
  split; [intros Hlt; rewrite Hsem1, (sem_posted_lt (wq.work_sem (queue s))) by lia;
          apply sem_posted_lt; lia|].
  split; [done|].
  split; [by rewrite lookup_insert_eq|].
  assert (Hno : forall l2, ~ chain (<[a:=set_next (Some a) (wreq.mk f d None)]> (heap s1)) (Some hd) l2).
  { intros l2 Hc2. rewrite <- Hhd in Hc2.
    eapply (chain_self_loop _ _ l2 a); [exact Hc2| |by rewrite lookup_insert_eq|done].
    eapply (chain_reaches (heap s1) _ _ l (Request a f d)); [exact Hc1| |exact Hc2].
    intros b Hb. rewrite lookup_insert_ne; [done|]. by intros ->. }
  split; [done|].
  rewrite eventfs_wq_free_not_running by (cbn; by rewrite Hrn1).
  cbn [queue wq.work set_work_sem].
  destruct (eventfs_wq_queue_free _ _) as [[rc s3]|] eqn:E; [|done].
  exfalso. revert E. unfold eventfs_wq_queue_free. unfold_m.
  destruct (eventfs_wq_queue_free_loop _ _ _) as [[u s4]|] eqn:E; [|done]. intros _.
  apply eventfs_wq_queue_free_loop_inv in E as [l2 Hl2]. by eapply Hno.
Qed.

(** The last node of a chain has no successor. *)
Lemma chain_last_next h p l t rt :
  chain h p l -> last (handle <$> l) = Some t -> h !! t = Some rt -> wreq.next rt = None.
Proof.
  revert p. induction l as [|x [|y l] IH]; intros p Hc Hl Ht; [done| |].
  - destruct Hc as (_ & nx & Hx & ->). cbn in Hl. injection Hl as <-.
    rewrite Hx in Ht. by injection Ht as <-.
  - destruct Hc as (_ & nx & _ & Hc). by eapply IH.
Qed.

(** X13. Enqueueing NULL.  [eventfs_wq_add] does not look at the request:
    with NULL it returns 0 and posts the semaphore (the count goes up by one,
    unless it is at [SEM_VALUE_MAX] already, where it stays), and the nodes
    and the head of the queue are as before, while the tail is NULL.  On an empty
    queue that is all (the queue stays well formed, and a worker is woken for
    nothing).  On a queue that holds requests, the head is then not NULL
    while the tail is, and the next enqueue of any request has no defined
    result: it stores through the NULL tail. *)
Theorem eventfs_wq_add_null s l :
  wq.work_lock (queue s) = false ->
  pending s l ->
  exists s',
    eventfs_wq_add None s = Some (0%Z, s') /\
    ((Z.of_nat (wq.work_sem (queue s)) < SEM_VALUE_MAX)%Z ->
     wq.work_sem (queue s') = S (wq.work_sem (queue s))) /\
    ((SEM_VALUE_MAX <= Z.of_nat (wq.work_sem (queue s)))%Z ->
     wq.work_sem (queue s') = wq.work_sem (queue s)) /\
    heap s' = heap s /\ world s' = world s /\ trace s' = trace s /\
    wq.work (queue s') = wq.work (queue s) /\
    wq.tail (queue s') = None /\
    (l = [] -> pending s' []) /\
    (l <> [] -> wq.work (queue s') <> None /\
                forall wreq, eventfs_wq_add wreq s' = None).
Proof.
  intros Hlock Hp. destruct l as [|x l].
  - destruct Hp as [Hw Ht]. cbn in Hw.
    pose proof (eventfs_wq_add_locked_empty None s Hlock Hw) as Hadd.
    apply eventfs_wq_add_after_locked in Hadd. cbn [queue heap world trace] in Hadd.
    eexists. split; [exact Hadd|].
    cbn [queue heap world trace wq.work_sem wq.work wq.tail set_work_sem].
    split; [apply sem_posted_lt|]. split; [apply sem_posted_ge|].
    by rewrite Hw.
  - destruct (pending_last_allocated _ _ _ Hp) as (t & rt & Hw & Ht & Hlast & Hrt).
    pose proof (eventfs_wq_add_locked_append None s _ t rt Hlock Hw Ht Hrt) as Hadd.
    apply eventfs_wq_add_after_locked in Hadd. cbn [queue heap world trace] in Hadd.
    destruct Hp as [Hc _].
    pose proof (chain_last_next _ _ _ _ _ Hc Hlast Hrt) as Hnx.
    assert (Hsame : set_next None rt = rt) by (destruct rt; cbn in Hnx; by subst).
    rewrite Hsame, insert_id in Hadd by done.
    eexists. split; [exact Hadd|]. cbn [queue heap world trace wq.work_sem wq.work wq.tail set_work_sem].
    split; [apply sem_posted_lt|]. split; [apply sem_posted_ge|].
    do 5 (split; [done|]). split; [done|]. intros _. split; [done|].
    intros wreq. unfold eventfs_wq_add, eventfs_wq_add_locked, pthread_mutex_lock, load.
    unfold_m. by cbn.
Qed.

End Edges.

(** ** The examples, run *)

Lemma ex_pending rn th n :
  pending (State (wq.mk rn th false n (Some 1%positive) (Some 2%positive)) ex_heap 0 [])
          [ex_req1; ex_req2].
Proof.
  split; [|done].
  cbn. split; [done|]. exists (Some 2%positive). split; [done|].
  split; [done|]. by exists None.
Qed.

Lemma ex_empty_pending rn th n (h : gmap loc wreq.t) :
  pending (State (wq.mk rn th false n None None) h 0 []) [].
Proof. done. Qed.

Lemma ex_heap_3 : ex_heap !! 3%positive = Some ex_node3.
Proof. reflexivity. Qed.

Lemma ex_3_fresh : 3%positive ∉ handle <$> [ex_req1; ex_req2].
Proof.
  cbn. intros [H|[H|H]%elem_of_cons]%elem_of_cons; try done.
  by apply elem_of_nil in H.
Qed.

Lemma ex_callbacks : Forall (fun r => is_Some (callback r)) [ex_req1; ex_req2].
Proof. repeat constructor; by eexists. Qed.

(** On the interleaving [ex_order_acts] the request 1 has been called, the
    request 2 is in the worker's hands and the request 3 is pending; the
    worker left to run then calls the requests 2 and 3, in that order, and
    waits. *)
Lemma worker_executes_in_submission_order_witness :
  exists y,
    sys_run ex_invoke ex_order_acts (Sys ex_started W_loop true) = Some y /\
    calls_of (trace (sys_state y)) = [ex_req1] /\
    sys_pc y = W_work (Some 2%positive) /\
    exists k s',
      eventfs_wq_main_steps ex_invoke (replicate k None) (sys_pc y) (sys_state y) =
        Some (W_wait, s') /\
      eventfs_wq_main_step ex_invoke None W_wait s' = None /\
      pending s' [] /\
      calls_of (trace s') = [ex_req1; ex_req2; ex_req3].
Proof.
  eexists. split; [vm_compute; reflexivity|].
  split; [vm_compute; reflexivity|]. split; [reflexivity|].
  refine (proj2 (worker_executes_in_submission_order ex_invoke ex_order_acts ex_started _
                   _ _ _) _ _ _ _ _).
  - apply ex_empty_pending.
  - reflexivity.
  - vm_compute. reflexivity.
  - reflexivity.
  - reflexivity.
  - discriminate.
  - repeat constructor; by eexists.
  - reflexivity.
Defined.

Lemma round_trip_witness :
  let req := Request 3%positive (Some 9%positive) 99%Z in
  exists s1 k s2,
    (eventfs_wreq_init (Some 3%positive) (Some 9%positive) 99%Z;;
     eventfs_wq_add (Some 3%positive)) ex_waiting = Some (0%Z, s1) /\
    eventfs_wq_main_steps ex_invoke (replicate k None) W_wait s1 = Some (W_wait, s2) /\
    eventfs_wq_main_step ex_invoke None W_wait s2 = None /\
    trace s2 = trace ex_waiting
               ++ (batch_trace ex_invoke ([ex_req1; ex_req2] ++ [req]) (world ex_waiting)).1 /\
    calls_of (trace s2) = calls_of (trace ex_waiting) ++ [ex_req1; ex_req2] ++ [req] /\
    heap s2 !! 3%positive = None /\
    pending s2 [] /\
    forall acts y,
      submitted acts = [] ->
      sys_run ex_invoke acts (Sys s2 W_wait true) = Some y ->
      calls_of (trace (sys_state y)) = calls_of (trace s2).
Proof.
  apply (round_trip ex_invoke W_wait ex_waiting [ex_req1; ex_req2] 3%positive ex_node3).
  - right. right. reflexivity.
  - reflexivity.
  - reflexivity.
  - apply ex_pending.
  - apply ex_callbacks.
  - apply ex_heap_3.
  - apply ex_3_fresh.
Defined.

Lemma eventfs_wq_add_postcondition_witness :
  exists s',
    eventfs_wq_add (Some 3%positive) ex_running = Some (0%Z, s') /\
    wq.work_sem (queue s') = 3 /\
    wq.tail (queue s') = Some 3%positive /\
    wq.work (queue s') = Some 1%positive /\
    heap s' !! 2%positive = Some (wreq.mk (Some 2%positive) 20%Z (Some 3%positive)).
Proof.
  destruct (proj2 (eventfs_wq_add_postcondition (Some 3%positive) ex_running))
    as (s' & Hadd & Hsem & _ & Htl & _ & _ & _ & _ & _ & Hwork & t & r & Ht & Hr & _ & Hlk).
  - reflexivity.
  - intros _. exists 2%positive. split; [reflexivity|]. by eexists.
  - exists s'. cbn in Ht, Hr. injection Ht as <-. injection Hr as <-.
    specialize (Hsem eq_refl). by split_and!.
Defined.

Lemma head_tail_inv_preserved_witness :
  exists s',
    run_op ex_invoke (op_add (Some 3%positive)) ex_running = Some s' /\
    head_tail_inv (queue s').
Proof.
  eexists. split; [vm_compute; reflexivity|].
  apply (proj2 (head_tail_inv_preserved ex_invoke (op_add (Some 3%positive)) ex_running _)).
  - split; intros H; discriminate H.
  - intros wreq [= <-]. discriminate.
  - vm_compute. reflexivity.
Defined.

(** The callback of the request 1 fails with -5: the failure is logged, the
    node released and the request 2 executed all the same. *)
Lemma callback_failure_does_not_stop_worker_witness :
  let s' := State (queue ex_running) ∅ 2
                  [ev_debug_begin 10%Z; ev_call 1%positive 1%positive 10%Z;
                   ev_debug_end 10%Z; ev_error_work (Some 1%positive) (-5)%Z;
                   ev_free 1%positive;
                   ev_debug_begin 20%Z; ev_call 2%positive 2%positive 20%Z;
                   ev_debug_end 20%Z; ev_free 2%positive] in
  eventfs_wq_main_steps ex_invoke [None; None; None] (W_work (Some 1%positive))
    (State (queue ex_running) (delete 3%positive ex_heap) 0 []) = Some (W_loop, s').
Proof.
  pose proof (callback_failure_does_not_stop_worker ex_invoke [None; None; None]
                [ex_req1; ex_req2] (Some 1%positive)
                (State (queue ex_running) (delete 3%positive ex_heap) 0 [])) as H.
  cbn zeta in H. destruct H as (H & _).
  - cbn. split; [done|]. exists (Some 2%positive). split; [done|].
    split; [done|]. by exists None.
  - apply ex_callbacks.
  - reflexivity.
  - rewrite H. vm_compute. reflexivity.
Defined.

Lemma lifecycle_misuse_rejected_witness :
  eventfs_wq_start ex_create_ok ex_running = Some ((- EINVAL)%Z, ex_running) /\
  eventfs_wq_stop ex_idle = Some ((- EINVAL)%Z, ex_idle) /\
  eventfs_wq_free ex_running = Some ((- EINVAL)%Z, ex_running).
Proof.
  split_and!.
  - apply (proj1 (lifecycle_misuse_rejected ex_create_ok ex_running)). reflexivity.
  - apply (proj1 (proj2 (lifecycle_misuse_rejected ex_create_ok ex_idle))). reflexivity.
  - apply (proj1 (proj2 (proj2 (lifecycle_misuse_rejected ex_create_ok ex_running)))).
    reflexivity.
Defined.

(** C6, as stated, fails: the three misuse codes are not distinct, they are
    the same [-EINVAL]. *)
Lemma misuse_codes_not_distinct :
  ~ (exists e1 e2 e3 : Z,
       e1 <> e2 /\ e1 <> e3 /\ e2 <> e3 /\
       eventfs_wq_start ex_create_ok ex_running = Some (e1, ex_running) /\
       eventfs_wq_stop ex_idle = Some (e2, ex_idle) /\
       eventfs_wq_free ex_running = Some (e3, ex_running)).
Proof.
  intros (e1 & e2 & e3 & H12 & _ & _ & H1 & H2 & _).
  vm_compute in H1, H2. congruence.
Qed.

(** C7. Thread creation fails with EAGAIN while errno holds 0 (thread
    functions report through their return value): [eventfs_wq_start] rolls
    the running flag back, and returns [-errno], here 0, the success code,
    instead of the error of the thread creation. *)
Theorem eventfs_wq_start_spawn_failure_returns_errno :
  create_rc ex_create_fails <> 0%Z /\
  eventfs_wq_start ex_create_fails ex_idle =
    Some (0%Z, State (queue ex_idle) ∅ 0 [ev_error_pthread_create 0%Z]).
Proof. split; [discriminate|reflexivity]. Qed.

Lemma eventfs_wq_free_discards_witness :
  eventfs_wq_free ex_stopped =
    Some (0%Z, State wq.zero (free_all [1%positive; 2%positive] ex_heap) 0
                     [ev_free 1%positive; ev_free 2%positive;
                      ev_mutex_destroy; ev_sem_destroy]).
Proof.
  apply (eventfs_wq_free_discards ex_stopped [ex_req1; ex_req2]).
  - reflexivity.
  - apply ex_pending.
Defined.

Lemma fatal_trywait_error_stops_worker_witness :
  eventfs_wq_main_step ex_invoke (Some EINVAL) W_trywait ex_running =
    Some (W_return, State (queue ex_running) ex_heap 0 [ev_error_fatal (- EINVAL)%Z]).
Proof.
  apply (fatal_trywait_error_stops_worker ex_invoke ex_running EINVAL). discriminate.
Defined.

(** C9.  A failing wait is fatal on the [sem_trywait] path only (lines
    46-51).  The result of the blocking [sem_wait] of line 44 is dropped:
    when it fails with EINVAL (or with EINTR) the worker logs nothing, does
    not leave its loop, detaches the chain although no post was consumed, and
    executes the request 1. *)
Theorem blocking_wait_failure_not_fatal :
  EINVAL <> EAGAIN /\
  eventfs_wq_main_step ex_invoke (Some EINVAL) W_wait ex_waiting = Some (W_cancelled, ex_waiting) /\
  eventfs_wq_main_step ex_invoke (Some EINTR) W_wait ex_waiting = Some (W_cancelled, ex_waiting) /\
  eventfs_wq_main_steps ex_invoke [Some EINVAL; None; None; None] W_wait ex_waiting =
    Some (W_work (Some 2%positive),
          State (wq.mk true 7%Z false 0 None None) (delete 1%positive ex_heap) 1
                [ev_debug_begin 10%Z; ev_call 1%positive 1%positive 10%Z;
                 ev_debug_end 10%Z; ev_error_work (Some 1%positive) (-5)%Z;
                 ev_free 1%positive]).
Proof.
  split_and!; [discriminate|reflexivity|reflexivity|].
  vm_compute. reflexivity.
Qed.

Lemma ex_saturated_add :
  eventfs_wq_add (Some 3%positive) ex_saturated =
    Some (0%Z, State (wq.mk false 0%Z false (Z.to_nat SEM_VALUE_MAX)
                            (Some 3%positive) (Some 3%positive))
                     (<[3%positive := ex_node3]> ∅) 0 []).
Proof.
  unfold ex_saturated. rewrite eventfs_wq_add_empty by reflexivity.
  cbn [queue heap world trace wq.running wq.thread wq.work_sem].
  rewrite sem_posted_ge; [reflexivity|].
  rewrite Z2Nat.id; [lia|discriminate].
Qed.

(** C3, as stated, fails at the bound of the semaphore: on a queue whose
    count is at [SEM_VALUE_MAX] the enqueue links the request and returns 0,
    and the count is what it was, not one more. *)
Lemma enqueue_at_sem_value_max :
  Z.of_nat (wq.work_sem (queue ex_saturated)) = SEM_VALUE_MAX /\
  exists s',
    eventfs_wq_add (Some 3%positive) ex_saturated = Some (0%Z, s') /\
    wq.work (queue s') = Some 3%positive /\
    wq.tail (queue s') = Some 3%positive /\
    wq.work_sem (queue s') = wq.work_sem (queue ex_saturated) /\
    wq.work_sem (queue s') <> S (wq.work_sem (queue ex_saturated)).
Proof.
  split.
  - unfold ex_saturated. cbn [queue wq.work_sem]. rewrite Z2Nat.id; [done|discriminate].
  - eexists. split; [apply ex_saturated_add|].
    unfold ex_saturated. cbn [queue wq.work wq.tail wq.work_sem].
    split; [done|]. split; [done|]. split; [done|]. apply n_Sn.
Qed.

(** C10, as stated, fails when the queue is started after the enqueue: the
    request 3 is enqueued on a queue that was never started, the queue is
    started, and the worker detaches the request, invokes its callback and
    releases the node itself.  It also fails at the bound of the semaphore:
    the enqueue on a queue that is not running, with the count at
    [SEM_VALUE_MAX], does not increment the count. *)
Lemma enqueue_before_start_is_executed :
  (wq.running (queue ex_saturated) = false /\
   exists s',
     eventfs_wq_add (Some 3%positive) ex_saturated = Some (0%Z, s') /\
     wq.work_sem (queue s') <> S (wq.work_sem (queue ex_saturated))) /\
  wq.running (queue ex_constructed) = false /\
  eventfs_wq_add (Some 3%positive) ex_constructed =
    Some (0%Z, State (wq.mk false 0%Z false 1 (Some 3%positive) (Some 3%positive))
                     (<[3%positive := ex_node3]> ∅) 0 []) /\
  eventfs_wq_start ex_create_ok
    (State (wq.mk false 0%Z false 1 (Some 3%positive) (Some 3%positive))
           (<[3%positive := ex_node3]> ∅) 0 []) =
    Some (0%Z, State (wq.mk true 7%Z false 1 (Some 3%positive) (Some 3%positive))
                     (<[3%positive := ex_node3]> ∅) 0 [ev_pthread_create 7%Z]) /\
  eventfs_wq_main_steps ex_invoke (replicate 5 None) W_loop
    (State (wq.mk true 7%Z false 1 (Some 3%positive) (Some 3%positive))
           (<[3%positive := ex_node3]> ∅) 0 [ev_pthread_create 7%Z]) =
    Some (W_work None,
          State (wq.mk true 7%Z false 0 None None) ∅ 1
                [ev_pthread_create 7%Z; ev_debug_begin 30%Z;
                 ev_call 3%positive 3%positive 30%Z; ev_debug_end 30%Z;
                 ev_free 3%positive]).
Proof.
  split.
  { split; [reflexivity|]. eexists. split; [apply ex_saturated_add|].
    unfold ex_saturated. cbn [queue wq.work_sem]. apply n_Sn. }
  split_and!; vm_compute; reflexivity.
Qed.

Lemma enqueue_on_stopped_queue_witness :
  exists s1,
    eventfs_wq_add (Some 3%positive) ex_stopped = Some (0%Z, s1) /\
    pending s1 ([ex_req1; ex_req2] ++ [ex_req3]) /\
    wq.work_sem (queue s1) = 3 /\
    wq.running (queue s1) = false /\
    trace s1 = [] /\ world s1 = 0 /\
    forall alive acts y,
      sys_run ex_invoke acts (Sys s1 W_return alive) = Some y ->
      let s2 := sys_state y in
      let l2 := [ex_req1; ex_req2] ++ [ex_req3] ++ submitted acts in
      trace s2 = [] /\ world s2 = 0 /\
      is_Some (heap s2 !! 3%positive) /\
      pending s2 l2 /\
      exists s3,
        eventfs_wq_free s2 = Some (0%Z, s3) /\
        heap s3 !! 3%positive = None /\
        calls_of (trace s3) = [] /\
        frees_of (trace s3) = [] ++ (handle <$> l2).
Proof.
  destruct (enqueue_on_stopped_queue ex_invoke ex_stopped [ex_req1; ex_req2]
              3%positive (Some 3%positive) 30%Z)
    as (s1 & Hadd & Hp & Hsem & _ & Hrn & Htr & Hw & Hrest).
  - reflexivity.
  - reflexivity.
  - apply ex_pending.
  - apply ex_heap_3.
  - apply ex_3_fresh.
  - exists s1. split; [exact Hadd|]. split; [exact Hp|].
    split; [exact (Hsem eq_refl)|]. split; [exact Hrn|].
    split; [exact Htr|]. split; [exact Hw|]. exact Hrest.
Defined.

(** *** The further properties, run *)

Lemma ex_chain : chain ex_heap (Some 1%positive) [ex_req1; ex_req2].
Proof. exact (proj1 (ex_pending false 7%Z 2)). Qed.

Lemma ex_acts_callbacks :
  Forall (fun r => is_Some (callback r)) ([] ++ submitted ex_acts).
Proof. repeat constructor; by eexists. Qed.

(** The queue of [ex_stopped] is started and its worker detaches the two
    requests and executes the first; the queue is stopped, the worker ends
    there, and the queue is destroyed: the request 1 has been called, the
    request 2 stays allocated and nothing is left to release. *)
Lemma start_stop_free_witness :
  exists s1 y s2 ex lp l' s4,
    eventfs_wq_start ex_create_ok ex_stopped = Some (0%Z, s1) /\
    sys_run ex_invoke (replicate 5 (a_worker None)) (Sys s1 W_loop true) = Some y /\
    eventfs_wq_stop (sys_state y) = Some (0%Z, s2) /\
    calls_of (trace s2) = calls_of (trace ex_stopped) ++ ex /\
    ex ++ lp ++ l' = [ex_req1; ex_req2] ++ submitted (replicate 5 (a_worker None)) /\
    eventfs_wq_free s2 = Some (0%Z, s4) /\
    frees_of (trace s4) = frees_of (trace s2) ++ (handle <$> l') /\
    (forall r, r ∈ lp -> is_Some (heap s4 !! handle r)).
Proof.
  destruct (start_stop_free ex_invoke ex_create_ok ex_stopped [ex_req1; ex_req2])
    as (s1 & Hstart & Hrest).
  - reflexivity.
  - reflexivity.
  - reflexivity.
  - apply ex_pending.
  - vm_compute in Hstart. injection Hstart as <-.
    edestruct (Hrest (replicate 5 (a_worker None))) as (s2 & Hstop & Hafter);
      [vm_compute; reflexivity|vm_compute; reflexivity|].
    destruct (Hafter [] _ _ eq_refl) as (ex & lp & l' & s4 & Hc & HD & Hfree & _ & _ & Hfr & _ & Hlp).
    eexists _, _, s2, ex, lp, l', s4.
    split; [vm_compute; reflexivity|]. split; [vm_compute; reflexivity|].
    split; [exact Hstop|]. split; [exact Hc|]. split; [exact HD|].
    split; [exact Hfree|]. split; [exact Hfr|].
    intros r Hr. by apply Hlp.
Defined.


Lemma batch_completes_after_stop_witness :
  eventfs_wq_main_steps ex_invoke ([None; None; None] ++ [None]) (W_work (Some 1%positive))
    ex_stopped =
    Some (W_return,
          State (queue ex_stopped) (free_all [1%positive; 2%positive] ex_heap) 2
                [ev_debug_begin 10%Z; ev_call 1%positive 1%positive 10%Z;
                 ev_debug_end 10%Z; ev_error_work (Some 1%positive) (-5)%Z;
                 ev_free 1%positive;
                 ev_debug_begin 20%Z; ev_call 2%positive 2%positive 20%Z;
                 ev_debug_end 20%Z; ev_free 2%positive]).
Proof.
  pose proof (batch_completes_after_stop ex_invoke [None; None; None] None
                [ex_req1; ex_req2] (Some 1%positive) ex_stopped) as H.
  cbn zeta in H. destruct H as (H & _).
  - apply ex_chain.
  - apply ex_callbacks.
  - reflexivity.
  - reflexivity.
  - rewrite H. vm_compute. reflexivity.
Defined.

Lemma spurious_posts_are_harmless_witness :
  eventfs_wq_main_steps ex_invoke (replicate 12 None) W_loop ex_posted =
    Some (W_wait, ex_started) /\
  eventfs_wq_main_step ex_invoke None W_wait ex_started = None.
Proof.
  apply (spurious_posts_are_harmless ex_invoke ex_posted); reflexivity.
Defined.

Lemma start_failure_then_retry_witness :
  exists s1 s2,
    eventfs_wq_start ex_create_fails ex_idle = Some (0%Z, s1) /\
    wq.running (queue s1) = false /\
    eventfs_wq_start ex_create_ok s1 = Some (0%Z, s2) /\
    wq.running (queue s2) = true /\
    wq.thread (queue s2) = 7%Z.
Proof.
  destruct (start_failure_then_retry ex_create_fails ex_create_ok ex_idle)
    as (s1 & s2 & H1 & Hr1 & _ & _ & _ & _ & _ & H2 & Hr2 & Ht2 & _).
  - reflexivity.
  - discriminate.
  - reflexivity.
  - exists s1, s2. by split_and!.
Defined.

(** After a submission, its post and eight steps the worker waits again,
    on a semaphore at 0 and an empty chain. *)
Lemma no_lost_wakeup_witness :
  exists y,
    sys_run ex_invoke ex_drain_acts (Sys ex_started W_loop true) = Some y /\
    sys_pc y = W_wait /\
    wq.work_sem (queue (sys_state y)) = 0 /\
    wq.work (queue (sys_state y)) = None.
Proof.
  eexists. split; [vm_compute; reflexivity|]. split; [reflexivity|].
  split; [reflexivity|].
  refine (proj2 (no_lost_wakeup ex_invoke ex_drain_acts ex_started _ _ _) _ _ _);
    [reflexivity|vm_compute| | |]; reflexivity.
Defined.

Lemma releases_follow_calls_witness :
  exists y,
    sys_run ex_invoke ex_order_acts (Sys ex_started W_loop true) = Some y /\
    exists t, trace (sys_state y) = trace ex_started ++ t /\
              frees_of t = handle <$> calls_of t.
Proof.
  eexists. split; [vm_compute; reflexivity|].
  apply (releases_follow_calls ex_invoke ex_order_acts (Sys ex_started W_loop true)).
  - repeat constructor; discriminate.
  - vm_compute. reflexivity.
Defined.

Lemma run_has_no_memory_fault_witness :
  exists y,
    sys_run ex_invoke ex_acts (Sys ex_started W_loop true) = Some y /\
    (forall a junk f d, heap (sys_state y) !! a = None ->
       is_Some (sys_step ex_invoke (a_submit a junk f d) y)) /\
    (forall inj, sys_step ex_invoke (a_worker inj) y = None ->
       sys_alive y = true /\ sys_pc y = W_wait /\ inj = None /\
       wq.work_sem (queue (sys_state y)) = 0).
Proof.
  eexists. split; [vm_compute; reflexivity|].
  apply (run_has_no_memory_fault ex_invoke ex_acts ex_started []).
  - apply ex_empty_pending.
  - reflexivity.
  - apply ex_acts_callbacks.
  - vm_compute. reflexivity.
Defined.

(** After [ex_acts] the request 1 has been executed, the request 2 was in
    the hands of the cancelled worker and the request 3 is pending:
    destruction releases the request 3 and leaves the request 2 allocated. *)
Lemma destroy_after_run_witness :
  exists y,
    sys_run ex_invoke ex_acts (Sys ex_started W_loop true) = Some y /\
    exists ex lp l s',
      calls_of (trace (sys_state y)) = calls_of (trace ex_started) ++ ex /\
      ex ++ lp ++ l = [] ++ submitted ex_acts /\
      eventfs_wq_free (sys_state y) = Some (0%Z, s') /\
      queue s' = wq.zero /\
      calls_of (trace s') = calls_of (trace (sys_state y)) /\
      frees_of (trace s') = frees_of (trace (sys_state y)) ++ (handle <$> l) /\
      (forall r, r ∈ l -> heap s' !! handle r = None) /\
      (forall r, r ∈ lp -> heap s' !! handle r = heap (sys_state y) !! handle r /\
                           is_Some (heap s' !! handle r)).
Proof.
  eexists. split; [vm_compute; reflexivity|].
  apply (destroy_after_run ex_invoke ex_acts ex_started []).
  - apply ex_empty_pending.
  - reflexivity.
  - vm_compute. reflexivity.
  - reflexivity.
Defined.

Lemma eventfs_wq_queue_free_defined_witness :
  eventfs_wq_queue_free (Some 1%positive) ex_stopped =
    Some (0%Z, State (queue ex_stopped) (free_all [1%positive; 2%positive] ex_heap) 0
                     [ev_free 1%positive; ev_free 2%positive]) /\
  ex_heap !! 3%positive = free_all [1%positive; 2%positive] ex_heap !! 3%positive.
Proof.
  destruct (proj1 (proj2 (eventfs_wq_queue_free_defined (Some 1%positive) ex_stopped))
              [ex_req1; ex_req2] ex_chain) as (H & Hout & _).
  split; [exact H|]. symmetry. apply Hout. apply ex_3_fresh.
Defined.

Lemma double_enqueue_breaks_destroy_witness :
  exists s1 s2,
    eventfs_wq_add (Some 3%positive) ex_stopped = Some (0%Z, s1) /\
    eventfs_wq_add (Some 3%positive) s1 = Some (0%Z, s2) /\
    heap s2 !! 3%positive = Some (wreq.mk (Some 3%positive) 30%Z (Some 3%positive)) /\
    eventfs_wq_free s2 = None.
Proof.
  destruct (double_enqueue_breaks_destroy ex_stopped [ex_req1; ex_req2] 3%positive
              (Some 3%positive) 30%Z)
    as (s1 & s2 & H1 & H2 & _ & _ & _ & Hs & _ & Hfree).
  - reflexivity.
  - reflexivity.
  - apply ex_pending.
  - apply ex_heap_3.
  - apply ex_3_fresh.
  - exists s1, s2. by split_and!.
Defined.

Lemma eventfs_wq_add_null_witness :
  exists s',
    eventfs_wq_add None ex_stopped = Some (0%Z, s') /\
    wq.work (queue s') = Some 1%positive /\
    wq.tail (queue s') = None /\
    eventfs_wq_add (Some 3%positive) s' = None.
Proof.
  destruct (eventfs_wq_add_null ex_stopped [ex_req1; ex_req2])
    as (s' & Hadd & _ & _ & _ & _ & _ & Hw & Ht & _ & Hnext).
  - reflexivity.
  - apply ex_pending.
  - exists s'. split_and!; [done|by rewrite Hw|done|].
    apply Hnext. discriminate.
Defined.
